(** * Bias-Coherence Index: scoring and validation

    A shallow embedding of [Github_weather/03_calculate_bci.py] and
    [Github_weather/04_validation.py], and the properties of them that the
    specification states; then the loop of
    [Github_weather/01_download_tigge.py] and further properties that the
    code shows.

    Numeric model.  The scripts compute on binary64 values through numpy,
    pandas and scipy.  Two embeddings are used.

    - In the modules [Numeric], [Scoring], [Matching], [Validation],
      [Summary] and [Report] a value is either a real number (a finite
      value; the infinities are not represented) or [NaN], and
      arithmetic is exact: no rounding and no overflow.  [NaN] is what
      numpy returns where a
      statistic is undefined (the mean of an empty array, [0 / 0], the
      square root of a negative number) and what pandas reads from an
      empty cell; numpy warns at those places and does not raise, so the
      functions of the scoring engine are total.  This embedding carries
      the properties that rounding leaves intact: which branch is taken
      on given values, bounds kept by [np.clip] and by the square root,
      monotonicity, counts, order and filtering.
    - In the module [Binary64] the scoring engine is embedded on the
      binary64 numbers themselves, with numpy's order of additions.  It
      carries what depends on that order.

    Library calls ([np.mean], [np.std], [np.clip], [scipy.stats.pearsonr],
    [groupby], [quantile], [sort_values]) are modelled by what their
    documentation says they compute; where a call raises the result is
    [None].  The least-squares solve inside [np.polyfit] is a parameter
    of the model: its result is the least-squares line only up to
    rounding. *)

From Stdlib Require Floats.
From Stdlib Require Import String Ascii OrderedTypeEx.
From Stdlib Require Import Reals Lra Lia Bool Arith ZArith List Permutation
  Sorted.
Import ListNotations.

Open Scope R_scope.

(** ** Values and the numpy primitives the scripts call *)

Module Numeric.

Inductive fl : Type :=
| Num (r : R)
| NaN.

Definition Rgtb (x y : R) : bool := if Rgt_dec x y then true else false.
Definition Rltb (x y : R) : bool := if Rlt_dec x y then true else false.
Definition Reqb (x y : R) : bool := if Req_dec_T x y then true else false.

Definition lift2 (f : R -> R -> R) (a b : fl) : fl :=
  match a, b with
  | Num x, Num y => Num (f x y)
  | _, _ => NaN
  end.

Definition fadd : fl -> fl -> fl := lift2 Rplus.
Definition fsub : fl -> fl -> fl := lift2 Rminus.
Definition fmul : fl -> fl -> fl := lift2 Rmult.

(** [a / b].  A zero denominator gives [NaN]: that is numpy's answer for
    [0 / 0], the only quotient by zero these scripts can form (the mean
    of, or a count over, an empty array; every other division sits
    behind a comparison that keeps the denominator away from zero), so
    the infinities of [x / 0] are not represented. *)
Definition fdiv (a b : fl) : fl :=
  match a, b with
  | Num x, Num y => if Req_dec_T y 0 then NaN else Num (x / y)
  | _, _ => NaN
  end.

(** [np.abs] *)
Definition fabs (a : fl) : fl :=
  match a with Num x => Num (Rabs x) | NaN => NaN end.

(** [np.sqrt]: [NaN] below zero. *)
Definition fsqrt (a : fl) : fl :=
  match a with
  | Num x => if Rlt_dec x 0 then NaN else Num (sqrt x)
  | NaN => NaN
  end.

(** [a > b] and [a < b]: false as soon as one side is [NaN]. *)
Definition fgtb (a b : fl) : bool :=
  match a, b with Num x, Num y => Rgtb x y | _, _ => false end.
Definition fltb (a b : fl) : bool :=
  match a, b with Num x, Num y => Rltb x y | _, _ => false end.

(** Python's builtin [min(a, b)]: the first argument unless the second is
    strictly smaller. *)
Definition py_min (a b : fl) : fl := if fltb b a then b else a.

(** [np.clip(a, lo, hi)] = [minimum(maximum(a, lo), hi)]; [NaN] stays. *)
Definition np_clip (a : fl) (lo hi : R) : fl :=
  match a with Num x => Num (Rmin (Rmax x lo) hi) | NaN => NaN end.

Definition Rsum (a : list R) : R := fold_right Rplus 0 a.

(** [np.sum(mask)] for the mask [p] over the array. *)
Definition count (p : R -> bool) (a : list R) : nat :=
  length (filter p a).

(** [np.mean]: the sum over the length, [NaN] on an empty array. *)
Definition np_mean (a : list R) : fl :=
  fdiv (Num (Rsum a)) (Num (INR (length a))).

(** [np.std] (population, ddof = 0): the root of the mean squared
    deviation from the mean. *)
Definition np_std (a : list R) : fl :=
  match np_mean a with
  | Num m => fsqrt (np_mean (map (fun x => Rsqr (x - m)) a))
  | NaN => NaN
  end.

#[global] Arguments fdiv : simpl never.
#[global] Arguments fsqrt : simpl never.

(** The population variance of a non-empty array as a real number: what
    [np_std] takes the root of. *)
Definition variance (a : list R) : R :=
  let m := Rsum a / INR (length a) in
  Rsum (map (fun x => Rsqr (x - m)) a) / INR (length a).

End Numeric.
Import Numeric.

(** ** 03_calculate_bci.py: the scoring engine *)

Module Scoring.

(** [biases = ensemble_members - observation] *)
Definition biases_of (ensemble_members : list R) (observation : R) : list R :=
  map (fun m => m - observation) ensemble_members.

(** [max(n_positive, n_negative) / len(biases)] *)
Definition directional_agreement (biases : list R) : fl :=
  let n_positive := count (fun b => Rgtb b 0) biases in
  let n_negative := count (fun b => Rltb b 0) biases in
  fdiv (Num (INR (Nat.max n_positive n_negative)))
       (Num (INR (length biases))).

Definition bias_std (biases : list R) : fl := np_std biases.
Definition bias_mean (biases : list R) : fl := fabs (np_mean biases).

Definition magnitude_consistency (biases : list R) : fl :=
  if fgtb (bias_mean biases) (Num 0.01) then
    let cv := fdiv (bias_std biases) (bias_mean biases) in
    fdiv (Num 1) (fadd (Num 1) cv)
  else Num 0.8.

(** The last two assignments to [phi]. *)
Definition combined_phi (directional_agreement magnitude_consistency : fl)
  : fl :=
  np_clip (fadd (fmul (Num 0.5) directional_agreement)
                (fmul (Num 0.5) magnitude_consistency)) 0.3 1.

Definition calculate_bci_component_phi
    (ensemble_members : list R) (observation : R) : fl :=
  let biases := biases_of ensemble_members observation in
  combined_phi (directional_agreement biases) (magnitude_consistency biases).

Definition spread_skill_ratio (spread error : fl) : fl :=
  if fgtb error (Num 0.1) then py_min (fdiv spread error) (Num 1)
  else Num 1.

Definition calculate_bci_component_rho (spread error : fl) : fl :=
  np_clip (spread_skill_ratio spread error) 0.3 1.

(** [spread] and [error] are optional ([None] when not supplied); a
    supplied value is passed on as it is, NaN included. *)
Definition calculate_bci (ensemble_members : list R) (observation : R)
    (spread error : option fl) : fl * fl * fl :=
  let phi := calculate_bci_component_phi ensemble_members observation in
  let spread :=
    match spread with
    | None => np_std ensemble_members
    | Some s => s
    end in
  let error :=
    match error with
    | None => fabs (fsub (np_mean ensemble_members) (Num observation))
    | Some e => e
    end in
  let rho := calculate_bci_component_rho spread error in
  let bci := fsqrt (fmul phi rho) in
  (bci, phi, rho).

End Scoring.

(** ** 03_calculate_bci.py: the scoring engine on binary64 numbers *)

Module Binary64.
Import PrimFloat.
Local Open Scope float_scope.
Local Set Warnings "-inexact-float".

(** A count as a binary64 number (exact: a count is far below 2^53). *)
Definition of_nat (n : nat) : float := of_uint63 (Uint63.of_Z (Z.of_nat n)).

(** [np.sum] of a one-dimensional float64 array is numpy's pairwise
    summation: up to 7 elements are added from left to right; up to 128
    elements are added into 8 running sums, one element in 8 each, which
    are combined two by two before the last [n mod 8] elements are added;
    a longer array is cut in two at a multiple of 8 near the middle and
    the sums of the two parts are added.  (The sign of a sum that is zero
    is not followed: nothing below depends on it.) *)
Fixpoint unrolled (r0 r1 r2 r3 r4 r5 r6 r7 : float) (a : list float)
  : float :=
  match a with
  | a0 :: a1 :: a2 :: a3 :: a4 :: a5 :: a6 :: a7 :: rest =>
      unrolled (r0 + a0) (r1 + a1) (r2 + a2) (r3 + a3)
               (r4 + a4) (r5 + a5) (r6 + a6) (r7 + a7) rest
  | _ => fold_left add a (((r0 + r1) + (r2 + r3)) + ((r4 + r5) + (r6 + r7)))
  end.

Fixpoint pairwise_sum (fuel : nat) (a : list float) : float :=
  let n := length a in
  if (n <? 8)%nat then fold_left add a 0
  else if (n <=? 128)%nat then
    match a with
    | a0 :: a1 :: a2 :: a3 :: a4 :: a5 :: a6 :: a7 :: rest =>
        unrolled a0 a1 a2 a3 a4 a5 a6 a7 rest
    | _ => 0
    end
  else
    match fuel with
    | O => 0
    | S fuel' =>
        let n2 := (n / 2 - (n / 2) mod 8)%nat in
        pairwise_sum fuel' (firstn n2 a) + pairwise_sum fuel' (skipn n2 a)
    end.

Definition np_sum (a : list float) : float := pairwise_sum (length a) a.

(** [np.mean]: the sum over the length; [0 / 0] is NaN. *)
Definition np_mean (a : list float) : float := np_sum a / of_nat (length a).

(** [np.std] (ddof = 0): the deviations from the mean are squared, their
    sum is divided by the length, and the root is taken. *)
Definition np_std (a : list float) : float :=
  let arrmean := np_mean a in
  let x := map (fun v => v - arrmean) a in
  let x := map (fun v => v * v) x in
  sqrt (np_sum x / of_nat (length a)).

(** [np.sum(mask)] *)
Definition count (p : float -> bool) (a : list float) : nat :=
  length (filter p a).

(** [np.clip(a, lo, hi)]: [minimum(maximum(a, lo), hi)], where a NaN in
    [a] stays. *)
Definition np_clip (a lo hi : float) : float :=
  let b := if is_nan a || (lo <? a) then a else lo in
  if is_nan b || (b <? hi) then b else hi.

(** Python's builtin [min(a, b)]. *)
Definition py_min (a b : float) : float := if b <? a then b else a.

Definition biases_of (ensemble_members : list float) (observation : float)
  : list float :=
  map (fun m => m - observation) ensemble_members.

Definition directional_agreement (biases : list float) : float :=
  let n_positive := count (fun b => 0 <? b) biases in
  let n_negative := count (fun b => b <? 0) biases in
  of_nat (Nat.max n_positive n_negative) / of_nat (length biases).

Definition magnitude_consistency (biases : list float) : float :=
  let bias_std := np_std biases in
  let bias_mean := abs (np_mean biases) in
  if 0.01 <? bias_mean then
    let cv := bias_std / bias_mean in
    1 / (1 + cv)
  else 0.8.

Definition calculate_bci_component_phi
    (ensemble_members : list float) (observation : float) : float :=
  let biases := biases_of ensemble_members observation in
  let phi := 0.5 * directional_agreement biases
             + 0.5 * magnitude_consistency biases in
  np_clip phi 0.3 1.

Definition calculate_bci_component_rho (spread error : float) : float :=
  let spread_skill_ratio :=
    if 0.1 <? error then py_min (spread / error) 1 else 1 in
  np_clip spread_skill_ratio 0.3 1.

Definition calculate_bci (ensemble_members : list float)
    (observation : float) (spread error : option float)
  : float * float * float :=
  let phi := calculate_bci_component_phi ensemble_members observation in
  let spread :=
    match spread with
    | None => np_std ensemble_members
    | Some s => s
    end in
  let error :=
    match error with
    | None => abs (np_mean ensemble_members - observation)
    | Some e => e
    end in
  let rho := calculate_bci_component_rho spread error in
  let bci := sqrt (phi * rho) in
  (bci, phi, rho).

End Binary64.

(** ** 03_calculate_bci.py: matching and filtering *)

Module Matching.
Import Scoring.

(** A row of the matched-forecast table.  [valid_time] is the parsed
    timestamp ([pd.to_datetime]), a count of nanoseconds.  The cells
    [model_mean], [model_std] and [mean_error] are passed on as they are
    read, so they may be NaN (an empty cell of the file); the observation
    and the member temperatures, which enter the arithmetic of phi, are
    numbers. *)
Record MatchedRow : Type := {
  m_storm : string;
  m_valid_time : Z;
  m_obs_temperature : R;
  m_model_mean : fl;
  m_model_std : fl;
  m_mean_error : fl
}.

(** A row of the ensemble-member table. *)
Record EnsembleRow : Type := {
  e_storm : string;
  e_valid_time : Z;
  e_temperature : R
}.

(** A dictionary appended to [results]. *)
Record ScoredRecord : Type := {
  storm : string;
  valid_time : Z;
  obs_temperature : R;
  model_mean : fl;
  model_std : fl;
  mean_error : fl;
  phi : fl;
  rho : fl;
  BCI : fl;
  n_members : nat
}.

(** The boolean mask [(storm == row.storm) & (valid_time == row.vt)]. *)
Definition same_key (row : MatchedRow) (e : EnsembleRow) : bool :=
  String.eqb (e_storm e) (m_storm row)
  && Z.eqb (e_valid_time e) (m_valid_time row).

(** [ensemble_df[mask]['temperature'].values] *)
Definition members_of (ensemble_df : list EnsembleRow) (row : MatchedRow)
  : list R :=
  map e_temperature (filter (same_key row) ensemble_df).

(** The dictionary built for a row that has enough members. *)
Definition scored (row : MatchedRow) (members : list R) : ScoredRecord :=
  let spread := m_model_std row in
  let error := m_mean_error row in
  let '(bci, phi, rho) :=
    calculate_bci members (m_obs_temperature row) (Some spread) (Some error)
  in
  {| storm := m_storm row;
     valid_time := m_valid_time row;
     obs_temperature := m_obs_temperature row;
     model_mean := m_model_mean row;
     model_std := spread;
     mean_error := error;
     phi := phi;
     rho := rho;
     BCI := bci;
     n_members := length members |}.

(** One turn of the loop over [matched_df.iterrows()]: [results] is the
    list built so far. *)
Definition loop_body (ensemble_df : list EnsembleRow)
    (results : list ScoredRecord) (row : MatchedRow) : list ScoredRecord :=
  let members := members_of ensemble_df row in
  if (length members <? 4)%nat then results            (* continue *)
  else results ++ [scored row members].                (* results.append *)

(** The rows of [results_df]. *)
Definition process_validation_data
    (matched_df : list MatchedRow) (ensemble_df : list EnsembleRow)
  : list ScoredRecord :=
  fold_left (loop_body ensemble_df) matched_df [].

(** The rows that pass the member-count test. *)
Definition enough_members (ensemble_df : list EnsembleRow)
    (row : MatchedRow) : bool :=
  (4 <=? length (members_of ensemble_df row))%nat.

(** Sample rows: a matched row and an ensemble member with the given
    key. *)
Definition matched (name : string) (vt : Z) : MatchedRow :=
  {| m_storm := name; m_valid_time := vt; m_obs_temperature := 20;
     m_model_mean := Num 21; m_model_std := Num 1; m_mean_error := Num 1 |}.

Definition member (name : string) (vt : Z) (temp : R) : EnsembleRow :=
  {| e_storm := name; e_valid_time := vt; e_temperature := temp |}.

End Matching.

(** ** 04_validation.py *)

Module Validation.

(** *** Elementwise arithmetic and sorting *)

(** [f] applied elementwise to two arrays of the same length. *)
Fixpoint zip_with {A B C : Type} (f : A -> B -> C)
    (xs : list A) (ys : list B) : list C :=
  match xs, ys with
  | x :: xs', y :: ys' => f x y :: zip_with f xs' ys'
  | _, _ => []
  end.

Definition Rleb (x y : R) : bool := if Rle_dec x y then true else false.

Fixpoint insert_sorted (x : R) (l : list R) : list R :=
  match l with
  | [] => [x]
  | y :: l' => if Rleb x y then x :: l else y :: insert_sorted x l'
  end.

(** The values in ascending order. *)
Definition sort (l : list R) : list R := fold_right insert_sorted [] l.

(** *** partial_correlation *)

(** The least-squares line through the points, [(slope, intercept)]:
    what [np.polyfit(x, y, 1)] computes in exact arithmetic.  It is
    defined for arrays of one length, not empty, when [x] is not
    constant (on a constant [x] the problem is rank deficient and has no
    single solution). *)
Definition np_polyfit1 (x y : list R) : option (R * R) :=
  if negb (length x =? length y)%nat || (length x =? 0)%nat then None
  else
    let n := INR (length x) in
    let mx := Rsum x / n in
    let my := Rsum y / n in
    let sxx := Rsum (map (fun a => (a - mx) * (a - mx)) x) in
    let sxy := Rsum (zip_with (fun a b => (a - mx) * (b - my)) x y) in
    if Req_dec_T sxx 0 then None
    else Some (sxy / sxx, my - sxy / sxx * mx).

(** [np.polyval([slope, intercept], x)] *)
Definition np_polyval1 (p : R * R) (x : list R) : list R :=
  map (fun a => fst p * a + snd p) x.

(** The sum of squared errors of the line [p] on the points: what a
    least-squares fit minimises. *)
Definition squared_error (p : R * R) (x y : list R) : R :=
  Rsum (map (fun e => e * e) (zip_with Rminus y (np_polyval1 p x))).

(** The solve in exact arithmetic: the least-squares line where there is
    one. *)
Definition exact_lstsq (x y : list R) : R * R :=
  match np_polyfit1 x y with
  | Some p => p
  | None => (0, 0)
  end.

(** [v + a * control + b] *)
Definition add_linear (v control : list R) (a b : R) : list R :=
  zip_with (fun vi ci => vi + a * ci + b) v control.

(** [(x == x[0]).all()] *)
Definition all_equal (x : list R) : bool :=
  match x with
  | [] => true
  | x0 :: _ => forallb (fun a => Reqb a x0) x
  end.

Section Pearson.

(** The coefficients that the least-squares solve inside [np.polyfit]
    returns for two arrays of one length ([numpy.linalg.lstsq], a LAPACK
    routine that works in binary64): the least-squares line up to the
    rounding of that routine, and a minimum-norm solution when [x] is
    constant.  The routine is not part of the scripts and its rounding
    is not modelled: the solve is a parameter, and what is proved below
    holds for every solve. *)
Variable lstsq : list R -> list R -> R * R.

(** The two-sided p-value scipy derives from the sample size and the
    coefficient (a beta distribution), left abstract. *)
Variable pearson_pvalue : nat -> R -> R.

(** [np.polyfit(x, y, 1)]: numpy raises TypeError on an empty [x] and on
    arrays of different lengths ([None]). *)
Definition np_polyfit (x y : list R) : option (R * R) :=
  if negb (length x =? length y)%nat || (length x =? 0)%nat then None
  else Some (lstsq x y).

(** [v - np.polyval(np.polyfit(control, v, 1), control)] *)
Definition residual (v control : list R) : option (list R) :=
  match np_polyfit control v with
  | Some p => Some (zip_with Rminus v (np_polyval1 p control))
  | None => None
  end.

(** [scipy.stats.pearsonr(x, y)]: [None] where scipy raises (different
    lengths, fewer than two points); [(NaN, NaN)] when an input is
    constant (scipy warns that the coefficient is not defined). *)
Definition pearsonr (x y : list R) : option (fl * fl) :=
  let n := length x in
  if negb (n =? length y)%nat || (n <? 2)%nat then None
  else if all_equal x || all_equal y then Some (NaN, NaN)
  else
    let xmean := Rsum x / INR n in
    let ymean := Rsum y / INR n in
    let xm := map (fun a => a - xmean) x in
    let ym := map (fun b => b - ymean) y in
    let normxm := sqrt (Rsum (map (fun a => a * a) xm)) in
    let normym := sqrt (Rsum (map (fun b => b * b) ym)) in
    let r := Rsum (zip_with (fun a b => (a / normxm) * (b / normym)) xm ym) in
    let r := Rmax (Rmin r 1) (-1) in
    Some (Num r, Num (pearson_pvalue n r)).

Definition partial_correlation (x y control : list R) : option (fl * fl) :=
  match residual x control with
  | None => None
  | Some x_resid =>
      match residual y control with
      | None => None
      | Some y_resid => pearsonr x_resid y_resid
      end
  end.

End Pearson.

(** *** The scored table read back from the CSV file

    A record has a storm name and numbers in its numeric columns;
    [valid_time] is the text of the file, [None] for an empty cell
    (pandas reads it as NaN). *)

Record Row : Type := {
  storm : string;
  valid_time : option string;
  obs_temperature : R;
  model_mean : R;
  model_std : R;
  mean_error : R;
  phi : R;
  rho : R;
  BCI : R;
  n_members : nat
}.

(** *** validate_bci: the per-storm table *)

Record StormStats : Type := {
  st_storm : string;     (* the index of the grouped table *)
  BCI_mean : fl;
  BCI_std : fl;
  Spread : fl;
  Error : fl;
  N : nat
}.

(** [groupby('storm')] sorts the group keys: each storm once, in ascending
    order of the names. *)
Fixpoint insert_key (k : string) (keys : list string) : list string :=
  match keys with
  | [] => [k]
  | k' :: rest =>
      match String.compare k k' with
      | Lt => k :: keys
      | Eq => keys
      | Gt => k' :: insert_key k rest
      end
  end.

Definition group_keys (df : list Row) : list string :=
  fold_right insert_key [] (map storm df).

Definition group_rows (df : list Row) (k : string) : list Row :=
  filter (fun r => String.eqb (storm r) k) df.

(** The aggregation ['mean']. *)
Definition agg_mean (values : list R) : fl := np_mean values.

(** The aggregation ['std'] of pandas: the sample deviation (ddof = 1),
    NaN on a single value. *)
Definition agg_std (values : list R) : fl :=
  match np_mean values with
  | Num m =>
      fsqrt (fdiv (Num (Rsum (map (fun x => Rsqr (x - m)) values)))
                  (Num (INR (length values - 1))))
  | NaN => NaN
  end.

(** Rounding to the nearest integer, halves to the even one. *)
Definition rint (x : R) : Z :=
  let f := Zfloor x in
  let d := x - IZR f in
  if Rlt_dec d (1 / 2) then f
  else if Rlt_dec (1 / 2) d then (f + 1)%Z
  else if Z.even f then f else (f + 1)%Z.

(** [.round(3)], on the exact value: the nearest multiple of 0.001,
    halves to the even one.  (pandas rounds the binary64 value, which
    can fall on the other side of a half: the last digit can differ by
    one where the exact value ends in 5 at the fourth decimal.) *)
Definition round3 (a : fl) : fl :=
  match a with
  | Num x => Num (IZR (rint (x * 1000)) / 1000)
  | NaN => NaN
  end.

(** The aggregation ['count']: the cells of the group that are not
    null. *)
Definition notnull {A : Type} (cell : option A) : bool :=
  match cell with Some _ => true | None => false end.

Definition agg_count {A : Type} (cells : list (option A)) : nat :=
  length (filter notnull cells).

Definition stats_of (df : list Row) (k : string) : StormStats :=
  let rows := group_rows df k in
  {| st_storm := k;
     BCI_mean := round3 (agg_mean (map BCI rows));
     BCI_std := round3 (agg_std (map BCI rows));
     Spread := round3 (agg_mean (map model_std rows));
     Error := round3 (agg_mean (map mean_error rows));
     N := agg_count (map valid_time rows) |}.

(** [storm_stats], after the columns are renamed. *)
Definition storm_stats (df : list Row) : list StormStats :=
  map (stats_of df) (group_keys df).

(** [sort_values('N', ascending=False)].  pandas reverses the column,
    sorts it ascending and reverses the result, so that rows with equal
    [N] keep the order of the table whenever the sort underneath keeps
    ties in order; numpy's default sort does so where it sorts by
    insertion (short arrays) and promises nothing in general.  The model
    is the order-keeping descending sort; what is proved of the printed
    order beyond descending counts is marked as holding in this model. *)
Fixpoint insert_by_N (s : StormStats) (l : list StormStats)
  : list StormStats :=
  match l with
  | [] => [s]
  | t :: l' => if (N t <=? N s)%nat then s :: l else t :: insert_by_N s l'
  end.

Definition sort_values_N_desc (l : list StormStats) : list StormStats :=
  fold_right insert_by_N [] l.

(** The table [validate_bci] prints. *)
Definition storm_report (df : list Row) : list StormStats :=
  sort_values_N_desc (storm_stats df).

(** The order the specification words: the storms as first met in the
    dataset, then by descending count with ties left in that order. *)
Fixpoint first_seen (keys : list string) : list string :=
  match keys with
  | [] => []
  | k :: rest =>
      k :: filter (fun k' => negb (String.eqb k' k)) (first_seen rest)
  end.

Definition summarize_by_storm_spec (df : list Row) : list StormStats :=
  sort_values_N_desc (map (stats_of df) (first_seen (map storm df))).

(** Orders used to state how the table is arranged: strictly ascending
    storm names, descending counts, and descending counts with equal
    counts in ascending order of the names. *)
Definition name_lt (a b : string) : Prop := String.compare a b = Lt.

Definition N_ge (s t : StormStats) : Prop := (N t <= N s)%nat.

Definition report_order (s t : StormStats) : Prop :=
  (N t < N s)%nat \/ (N t = N s /\ name_lt (st_storm s) (st_storm t)).

(** A sample record of the scored table with the given storm, BCI,
    spread and error. *)
Definition row (name : string) (bci spread err : R) : Row :=
  {| storm := name; valid_time := Some "2022-02-18 12:00:00"%string;
     obs_temperature := 0;
     model_mean := 0; model_std := spread; mean_error := err;
     phi := bci; rho := 1; BCI := bci; n_members := 4 |}.

(** *** baseline_comparison: the high-error label *)

(** [Series.quantile(q)] for [q = num / den], linear interpolation
    between the two nearest order statistics; NaN on an empty column. *)
Definition quantile (num den : nat) (values : list R) : fl :=
  match values with
  | [] => NaN
  | _ =>
      let sorted := sort values in
      let h := (num * (length values - 1))%nat in
      let lower := (h / den)%nat in
      let upper := Nat.min (lower + 1) (length values - 1) in
      let gamma := INR (h mod den) / INR den in
      let a := nth lower sorted 0 in
      let b := nth upper sorted 0 in
      Num (a + (b - a) * gamma)
  end.

Definition error_threshold (df : list Row) : fl :=
  quantile 3 4 (map mean_error df).

(** [(df['mean_error'] > error_threshold).astype(int)] *)
Definition high_error (df : list Row) : list nat :=
  map (fun r =>
         if fgtb (Num (mean_error r)) (error_threshold df) then 1%nat
         else 0%nat)
      df.

(** [df['high_error'].sum()] *)
Definition high_error_count (df : list Row) : nat :=
  fold_right Nat.add 0%nat (high_error df).

End Validation.

(** ** 03_calculate_bci.py: the summary printed after the loop *)

Module Summary.
Import Matching.

(** The values of a float column that pandas' reductions use: they skip
    NaN. *)
Fixpoint dropna (column : list fl) : list R :=
  match column with
  | [] => []
  | Num x :: rest => x :: dropna rest
  | NaN :: rest => dropna rest
  end.

(** [Series.mean()], [Series.std()] (ddof = 1), [Series.min()] and
    [Series.max()]: NaN when no value is left. *)
Definition series_mean (column : list fl) : fl := np_mean (dropna column).

Definition series_std (column : list fl) : fl :=
  Validation.agg_std (dropna column).

Definition series_min (column : list fl) : fl :=
  match dropna column with
  | [] => NaN
  | x :: rest => Num (fold_left Rmin rest x)
  end.

Definition series_max (column : list fl) : fl :=
  match dropna column with
  | [] => NaN
  | x :: rest => Num (fold_left Rmax rest x)
  end.

(** [results_df[name]].  [pd.DataFrame(results)] on an empty list is a
    frame without columns, and selecting a column of it raises KeyError
    ([None]). *)
Definition column (results_df : list ScoredRecord)
    (name : ScoredRecord -> fl) : option (list fl) :=
  match results_df with
  | [] => None
  | _ => Some (map name results_df)
  end.

(** The six numbers of the summary, before they are formatted. *)
Record Statistics : Type := {
  bci_mean : fl;
  bci_std : fl;
  bci_min : fl;
  bci_max : fl;
  phi_mean : fl;
  rho_mean : fl
}.

Definition summary_statistics (results_df : list ScoredRecord)
  : option Statistics :=
  match column results_df BCI, column results_df phi,
        column results_df rho with
  | Some bci, Some p, Some r =>
      Some {| bci_mean := series_mean bci;
              bci_std := series_std bci;
              bci_min := series_min bci;
              bci_max := series_max bci;
              phi_mean := series_mean p;
              rho_mean := series_mean r |}
  | _, _, _ => None
  end.

(** The whole of [process_validation_data]: the frame it returns with the
    summary it has printed, [None] when it raises. *)
Definition process_validation_data_run
    (matched_df : list MatchedRow) (ensemble_df : list EnsembleRow)
  : option (list ScoredRecord * Statistics) :=
  let results_df := process_validation_data matched_df ensemble_df in
  match summary_statistics results_df with
  | Some statistics => Some (results_df, statistics)
  | None => None
  end.

(** Sample tables: storm A at time 1 has four ensemble members, storm B
    one. *)
Definition sample_matched : list MatchedRow := [matched "A" 1; matched "B" 1].

Definition sample_ensemble : list EnsembleRow :=
  [member "A" 1 21; member "A" 1 22; member "B" 1 20; member "A" 1 23;
   member "A" 1 24].

Definition sample_record : ScoredRecord :=
  scored (matched "A" 1) [21; 22; 23; 24].

End Summary.

(** ** 04_validation.py: validate_bci as a whole *)

Module Report.
Import Validation.

(** The line printed under the partial correlation.  A comparison with
    NaN is false, so a NaN p-value falls through to the last branch. *)
Definition significance (partial_p : fl) : string :=
  if fltb partial_p (Num 0.001) then "  *** HIGHLY SIGNIFICANT (p < 0.001)"
  else if fltb partial_p (Num 0.01) then "  ** VERY SIGNIFICANT (p < 0.01)"
  else if fltb partial_p (Num 0.05) then "  * SIGNIFICANT (p < 0.05)"
  else "  NOT SIGNIFICANT".






(** The three lines printed first: the size of the dataset, the number
    of storms and the date range. *)
Record Header : Type := {
  n_timesteps : nat;
  n_storms : nat;
  date_min : option string;
  date_max : option string
}.



Section Validate.

Variable lstsq : list R -> list R -> R * R.
Variable pearson_pvalue : nat -> R -> R.


End Validate.

End Report.

(** ** 01_download_tigge.py *)

Module Download.
Local Open Scope string_scope.
Local Open Scope nat_scope.

Record Storm : Type := {
  name : string;
  dates : string
}.

Definition storms : list Storm := [
  {| name := "Eunice"; dates := "2022-02-17/to/2022-02-19" |};
  {| name := "Ciaran"; dates := "2023-11-01/to/2023-11-03" |};
  {| name := "Babet"; dates := "2023-10-18/to/2023-10-21" |};
  {| name := "Henk"; dates := "2024-01-02/to/2024-01-04" |};
  {| name := "Isha"; dates := "2024-01-21/to/2024-01-23" |};
  {| name := "Jocelyn"; dates := "2024-01-23/to/2024-01-25" |};
  {| name := "Arwen"; dates := "2021-11-26/to/2021-11-28" |};
  {| name := "Malik"; dates := "2022-01-28/to/2022-01-30" |};
  {| name := "Dudley"; dates := "2022-02-16/to/2022-02-17" |};
  {| name := "Franklin"; dates := "2022-02-20/to/2022-02-21" |};
  {| name := "Noa"; dates := "2023-04-12/to/2023-04-14" |};
  {| name := "Debi"; dates := "2023-11-13/to/2023-11-15" |};
  {| name := "Fergus"; dates := "2023-12-10/to/2023-12-12" |};
  {| name := "Gerrit"; dates := "2023-12-27/to/2023-12-29" |}
].

Definition origins : list string := ["ecmf"; "cwao"].

Definition output_dir : string := "tigge_data".

(** [str.lower()] and [str.upper()] on ASCII text (the names and the
    origin codes of the script are ASCII). *)
Definition lower_char (c : ascii) : ascii :=
  let n := nat_of_ascii c in
  if (65 <=? n) && (n <=? 90) then ascii_of_nat (n + 32) else c.

Definition upper_char (c : ascii) : ascii :=
  let n := nat_of_ascii c in
  if (97 <=? n) && (n <=? 122) then ascii_of_nat (n - 32) else c.

Fixpoint lower (s : string) : string :=
  match s with
  | EmptyString => EmptyString
  | String c rest => String (lower_char c) (lower rest)
  end.

Fixpoint upper (s : string) : string :=
  match s with
  | EmptyString => EmptyString
  | String c rest => String (upper_char c) (upper rest)
  end.

(** [os.path.join(a, b)] on POSIX: an absolute [b] replaces [a]; a
    separator is put between the two unless [a] is empty or ends with
    one. *)
Definition starts_with_sep (b : string) : bool :=
  match b with
  | String c _ => Ascii.eqb c "/"
  | EmptyString => false
  end.

Fixpoint ends_with_sep (a : string) : bool :=
  match a with
  | EmptyString => false
  | String c EmptyString => Ascii.eqb c "/"
  | String _ rest => ends_with_sep rest
  end.

Definition os_path_join (a b : string) : string :=
  if starts_with_sep b then b
  else if (String.length a =? 0) || ends_with_sep a then a ++ b
  else a ++ "/" ++ b.

(** [os.path.join(output_dir, f"{storm['name'].lower()}_{origin}.grib")] *)
Definition filepath (storm : Storm) (origin : string) : string :=
  os_path_join output_dir (lower (name storm) ++ "_" ++ origin ++ ".grib").

(** The dictionary passed to [server.retrieve], in the order written. *)
Definition request (storm : Storm) (origin target : string)
  : list (string * string) :=
  [("class", "ti");
   ("dataset", "tigge");
   ("date", dates storm);
   ("expver", "prod");
   ("levtype", "sfc");
   ("origin", origin);
   ("param", "2t");
   ("step", "0/6/12/18/24");
   ("time", "00:00:00/06:00:00/12:00:00/18:00:00");
   ("type", "pf");
   ("number", "1/2/3/4/5/6/7/8/9/10");
   ("grid", "0.25/0.25");
   ("area", "53/-2/52/-1");
   ("target", target);
   ("expect", "any")].

(** What is printed after a request. *)
Inductive Outcome : Type :=
| Saved (size : nat)     (* the target exists: its size in bytes *)
| Failed                    (* the call returned and the target is missing *)
| Error.                    (* the call raised an Exception *)

Inductive Line : Type :=
| Header (name dates : string)
| Progress (completed total : nat) (origin : string) (outcome : Outcome).

Section Server.

(** The archive and the file system are outside the script: [World] is
    their state.  [retrieve] answers a request in a world with the world
    after the call and whether the call returned ([true]) or raised an
    Exception ([false]). *)
Variable World : Type.
Variable retrieve : list (string * string) -> World -> World * bool.
Variable path_exists : World -> string -> bool.
Variable getsize : World -> string -> nat.

Record State : Type := {
  world : World;
  completed : nat;
  requests : list (list (string * string));   (* the calls made so far *)
  printed : list Line
}.

(** The body of the inner loop. *)
Definition attempt (total : nat) (storm : Storm) (st : State)
    (origin : string) : State :=
  let completed := S (completed st) in
  let filepath := filepath storm origin in
  let req := request storm origin filepath in
  let answer := retrieve req (world st) in
  let outcome :=
    if snd answer then
      if path_exists (fst answer) filepath
      then Saved (getsize (fst answer) filepath)
      else Failed
    else Error in
  {| world := fst answer;
     completed := completed;
     requests := requests st ++ [req];
     printed := printed st ++ [Progress completed total (upper origin) outcome]
  |}.

(** The body of the outer loop. *)
Definition per_storm (total : nat) (origins : list string) (st : State)
    (storm : Storm) : State :=
  let st :=
    {| world := world st;
       completed := completed st;
       requests := requests st;
       printed := printed st ++ [Header (name storm) (dates storm)] |} in
  fold_left (attempt total storm) origins st.

(** The two loops over the given storms and origins. *)
Definition download (storms : list Storm) (origins : list string)
    (w : World) : State :=
  let total := length storms * length origins in
  fold_left (per_storm total origins) storms
    {| world := w; completed := 0; requests := []; printed := [] |}.

(** The loops of the script.  The listing of the directory that it
    prints afterwards is not part of the model. *)
Definition download_tigge_storms (w : World) : State :=
  download storms origins w.

End Server.

Arguments world {World}.
Arguments completed {World}.
Arguments requests {World}.
Arguments printed {World}.
Arguments attempt {World}.
Arguments per_storm {World}.
Arguments download {World}.
Arguments download_tigge_storms {World}.

(** The progress counters [completed/total] among the printed lines. *)
Definition counters (lines : list Line) : list (nat * nat) :=
  flat_map (fun l =>
              match l with
              | Progress completed total _ _ => [(completed, total)]
              | Header _ _ => []
              end) lines.

(** The (storm, origin) pairs in the order of the loops. *)
Definition pairs (storms : list Storm) (origins : list string)
  : list (Storm * string) :=
  flat_map (fun storm => map (fun origin => (storm, origin)) origins) storms.

(** A list of names without repetition, and a text without underscore. *)
Fixpoint distinct (l : list string) : bool :=
  match l with
  | [] => true
  | x :: rest => negb (existsb (String.eqb x) rest) && distinct rest
  end.

Fixpoint no_underscore (s : string) : bool :=
  match s with
  | EmptyString => true
  | String c rest => negb (Ascii.eqb c "_") && no_underscore rest
  end.

End Download.

(** * Properties *)

(** ** The numeric primitives *)

Module NumericFacts.

Lemma Rgtb_true (x y : R) : Rgtb x y = true <-> x > y.
Proof. unfold Rgtb. destruct (Rgt_dec x y); split; intros; try easy. Qed.

Lemma Rgtb_false (x y : R) : Rgtb x y = false <-> x <= y.
Proof.
  unfold Rgtb. destruct (Rgt_dec x y); split; intros; try easy; lra.
Qed.

Lemma Rltb_true (x y : R) : Rltb x y = true <-> x < y.
Proof. unfold Rltb. destruct (Rlt_dec x y); split; intros; try easy. Qed.

Lemma Rltb_false (x y : R) : Rltb x y = false <-> y <= x.
Proof.
  unfold Rltb. destruct (Rlt_dec x y); split; intros; try easy; lra.
Qed.

Lemma fdiv_num (x y : R) : y <> 0 -> fdiv (Num x) (Num y) = Num (x / y).
Proof. intros H. unfold fdiv. destruct (Req_dec_T y 0); easy. Qed.

Lemma fsqrt_num (x : R) : 0 <= x -> fsqrt (Num x) = Num (sqrt x).
Proof. intros H. unfold fsqrt. destruct (Rlt_dec x 0); [lra | easy]. Qed.


Lemma np_clip_inside (x lo hi : R) :
  lo <= x <= hi -> np_clip (Num x) lo hi = Num x.
Proof.
  intros H. unfold np_clip, Rmin, Rmax. f_equal.
  destruct (Rle_dec x lo); destruct (Rle_dec _ hi); lra.
Qed.

Lemma np_clip_below (x lo hi : R) :
  x <= lo -> lo <= hi -> np_clip (Num x) lo hi = Num lo.
Proof.
  intros H H'. unfold np_clip, Rmin, Rmax. f_equal.
  destruct (Rle_dec x lo); destruct (Rle_dec _ hi); lra.
Qed.

Lemma np_clip_above (x lo hi : R) :
  hi <= x -> lo <= hi -> np_clip (Num x) lo hi = Num hi.
Proof.
  intros H H'. unfold np_clip, Rmin, Rmax. f_equal.
  destruct (Rle_dec x lo); destruct (Rle_dec _ hi); lra.
Qed.

Lemma length_pos_INR {A} (a : list A) : a <> [] -> 0 < INR (length a).
Proof.
  destruct a as [|x a]; [easy|]. intros _. apply lt_0_INR. simpl. lia.
Qed.

Lemma np_mean_num (a : list R) :
  a <> [] -> np_mean a = Num (Rsum a / INR (length a)).
Proof.
  intros H. unfold np_mean. apply fdiv_num.
  pose proof (length_pos_INR a H). lra.
Qed.

Lemma np_mean_nil : np_mean [] = NaN.
Proof.
  unfold np_mean, fdiv. simpl. destruct (Req_dec_T 0 0); [easy | lra].
Qed.

Lemma Rsum_sqr_nonneg (m : R) (a : list R) :
  0 <= Rsum (map (fun x => Rsqr (x - m)) a).
Proof.
  induction a as [|x a IH]; simpl; [lra|].
  pose proof (Rle_0_sqr (x - m)). lra.
Qed.

Lemma variance_nonneg (a : list R) : a <> [] -> 0 <= variance a.
Proof.
  intros H. unfold variance.
  apply Rmult_le_pos; [apply Rsum_sqr_nonneg|].
  left. apply Rinv_0_lt_compat. now apply length_pos_INR.
Qed.

Lemma np_std_num (a : list R) :
  a <> [] -> np_std a = Num (sqrt (variance a)).
Proof.
  intros H. unfold np_std. rewrite (np_mean_num a H).
  rewrite np_mean_num by (destruct a; easy).
  rewrite length_map. apply fsqrt_num. now apply variance_nonneg.
Qed.

Lemma np_std_nil : np_std [] = NaN.
Proof. unfold np_std. now rewrite np_mean_nil. Qed.


End NumericFacts.
Import NumericFacts.

(** ** The scoring engine *)

Module ScoringFacts.
Import Scoring.




Lemma bias_std_num (biases : list R) :
  biases <> [] -> bias_std biases = Num (sqrt (variance biases)).
Proof. intros H. unfold bias_std. now apply np_std_num. Qed.

(** The two branches of the magnitude-consistency term, once the absolute
    mean bias [m] and the standard deviation [s] are numbers. *)
Lemma magnitude_consistency_cases (biases : list R) (m s : R) :
  bias_mean biases = Num m -> bias_std biases = Num s -> 0 <= s ->
  (m <= 0.01 -> magnitude_consistency biases = Num 0.8) /\
  (m > 0.01 -> magnitude_consistency biases = Num (1 / (1 + s / m))).
Proof.
  intros Hm Hs Hs0. unfold magnitude_consistency. rewrite Hm, Hs.
  split; intros H.
  - simpl. now rewrite (proj2 (Rgtb_false m 0.01) H).
  - simpl. rewrite (proj2 (Rgtb_true m 0.01) H).
    rewrite fdiv_num by lra. unfold fadd, lift2.
    apply fdiv_num.
    assert (0 <= s / m).
    { apply Rmult_le_pos; [easy|]. left. apply Rinv_0_lt_compat. lra. }
    lra.
Qed.











(** *** Closed forms on a non-empty array whose statistics are known *)

Lemma np_mean_eq (a : list R) (m : R) :
  a <> [] -> Rsum a = m * INR (length a) -> np_mean a = Num m.
Proof.
  intros H E. rewrite np_mean_num by easy. f_equal.
  pose proof (length_pos_INR a H). rewrite E. field. lra.
Qed.

Lemma np_std_eq (a : list R) (m s : R) :
  a <> [] -> Rsum a = m * INR (length a) -> 0 <= s ->
  Rsum (map (fun x => Rsqr (x - m)) a) = s * s * INR (length a) ->
  np_std a = Num s.
Proof.
  intros H Em Hs Ev. unfold np_std. rewrite (np_mean_eq a m H Em).
  rewrite (np_mean_eq _ (s * s)).
  - rewrite fsqrt_num by nra. f_equal. now apply sqrt_square.
  - destruct a; easy.
  - now rewrite length_map.
Qed.

Lemma directional_agreement_eq (biases : list R) (n_positive n_negative : nat) :
  biases <> [] ->
  count (fun b => Rgtb b 0) biases = n_positive ->
  count (fun b => Rltb b 0) biases = n_negative ->
  directional_agreement biases
  = Num (INR (Nat.max n_positive n_negative) / INR (length biases)).
Proof.
  intros H Hp Hn. unfold directional_agreement. rewrite Hp, Hn.
  pose proof (length_pos_INR biases H). apply fdiv_num. lra.
Qed.

Lemma magnitude_consistency_eq (biases : list R) (m s : R) :
  biases <> [] ->
  Rsum biases = m * INR (length biases) -> 0 <= s ->
  Rsum (map (fun x => Rsqr (x - m)) biases) = s * s * INR (length biases) ->
  magnitude_consistency biases
  = if Rgtb (Rabs m) 0.01 then Num (1 / (1 + s / Rabs m)) else Num 0.8.
Proof.
  intros H Em Hs Ev.
  assert (Hm : bias_mean biases = Num (Rabs m)).
  { unfold bias_mean. now rewrite (np_mean_eq _ m). }
  assert (Hsd : bias_std biases = Num s).
  { unfold bias_std. now apply (np_std_eq _ m). }
  destruct (magnitude_consistency_cases _ _ _ Hm Hsd Hs) as [Hlo Hhi].
  destruct (Rgtb (Rabs m) 0.01) eqn:E.
  - apply Hhi. now apply Rgtb_true.
  - apply Hlo. now apply Rgtb_false.
Qed.

(** C2.  The fallback constants: with an error of at most 0.1 rho is 1
    whatever the spread (a number or NaN), and with an absolute mean bias
    [m] of at most 0.01 the magnitude-consistency term is 0.8; above
    0.01 the term is 1 / (1 + bias_std / bias_mean).  Every function here
    is total, so neither case raises. *)
Theorem degenerate_fallbacks
    (spread : fl) (e : R) (members : list R) (obs m : R) :
  (e <= 0.1 -> calculate_bci_component_rho spread (Num e) = Num 1) /\
  (bias_mean (biases_of members obs) = Num m ->
   (m <= 0.01 ->
    magnitude_consistency (biases_of members obs) = Num 0.8) /\
   (m > 0.01 ->
    exists s, bias_std (biases_of members obs) = Num s /\
      magnitude_consistency (biases_of members obs)
      = Num (1 / (1 + s / m)))).
Proof.
  split.
  - intros He. unfold calculate_bci_component_rho, spread_skill_ratio, fgtb.
    rewrite (proj2 (Rgtb_false e 0.1) He). apply np_clip_inside. lra.
  - intros Hm.
    assert (Hne : biases_of members obs <> []).
    { intros E. rewrite E in Hm. unfold bias_mean in Hm.
      now rewrite np_mean_nil in Hm. }
    pose proof (bias_std_num _ Hne) as Hs.
    pose proof (sqrt_pos (variance (biases_of members obs))) as Hs0.
    destruct (magnitude_consistency_cases _ _ _ Hm Hs Hs0) as [Hlo Hhi].
    split; [exact Hlo|]. intros Hgt. eexists. split; [exact Hs|].
    now apply Hhi.
Qed.

(** On an empty array the directional agreement is [0 / 0] and phi is
    NaN. *)
Lemma phi_nil (obs : R) : calculate_bci_component_phi [] obs = NaN.
Proof.
  unfold calculate_bci_component_phi, combined_phi, directional_agreement.
  simpl biases_of. unfold count. simpl filter. simpl length. simpl Nat.max.
  replace (fdiv (Num (INR 0)) (Num (INR 0))) with NaN; [reflexivity|].
  unfold fdiv. simpl. destruct (Req_dec_T 0 0); [easy | lra].
Qed.

Lemma rho_nan_error (spread : fl) :
  calculate_bci_component_rho spread NaN = Num 1.
Proof.
  unfold calculate_bci_component_rho, spread_skill_ratio. simpl.
  apply np_clip_inside. lra.
Qed.

(** C3 (as the code has it).  On an empty member sequence
    [calculate_bci] returns: BCI and phi are NaN, and rho is computed as
    usual from the spread and the error, an omitted one being NaN; with
    no error supplied rho is 1. *)
Theorem calculate_bci_empty (obs : R) (spread error : option fl) :
  calculate_bci [] obs spread error
  = (NaN, NaN,
     calculate_bci_component_rho
       (match spread with None => NaN | Some s => s end)
       (match error with None => NaN | Some e => e end)) /\
  calculate_bci [] obs spread None = (NaN, NaN, Num 1).
Proof.
  unfold calculate_bci. rewrite phi_nil, np_std_nil, np_mean_nil.
  split.
  - simpl. now destruct spread, error.
  - simpl. now rewrite rho_nan_error.
Qed.

(** C8 (as the code has it).  With the magnitude-consistency term [c]
    fixed and [d1 < d2], phi at [d1] is strictly below phi at [d2] unless
    phi at [d1] is already at the 1 clip or phi at [d2] is still at the
    0.3 clip. *)
Theorem combined_phi_increasing (d1 d2 c p1 p2 : R) :
  d1 < d2 ->
  combined_phi (Num d1) (Num c) = Num p1 ->
  combined_phi (Num d2) (Num c) = Num p2 ->
  p1 <> 1 -> p2 <> 0.3 ->
  p1 < p2.
Proof.
  intros Hd E1 E2 H1 H2. unfold combined_phi in *. simpl in *.
  injection E1 as <-. injection E2 as <-.
  revert H1 H2. unfold Rmin, Rmax.
  repeat match goal with
  | |- context [Rle_dec ?x ?y] =>
      lazymatch x with
      | context [Rle_dec] => fail
      | _ => destruct (Rle_dec x y)
      end
  end; lra.
Qed.

(** phi never decreases when the directional agreement grows. *)
Lemma combined_phi_monotone (d1 d2 c p1 p2 : R) :
  d1 <= d2 ->
  combined_phi (Num d1) (Num c) = Num p1 ->
  combined_phi (Num d2) (Num c) = Num p2 ->
  p1 <= p2.
Proof.
  intros Hd E1 E2. unfold combined_phi in *. simpl in *.
  injection E1 as <-. injection E2 as <-.
  unfold Rmin, Rmax.
  repeat match goal with
  | |- context [Rle_dec ?x ?y] =>
      lazymatch x with
      | context [Rle_dec] => fail
      | _ => destruct (Rle_dec x y)
      end
  end; lra.
Qed.

(** *** Reordering the members *)

Lemma Rsum_perm (a b : list R) : Permutation a b -> Rsum a = Rsum b.
Proof.
  induction 1; simpl; lra.
Qed.

Lemma count_perm (p : R -> bool) (a b : list R) :
  Permutation a b -> count p a = count p b.
Proof.
  intros H. unfold count. apply Permutation_length.
  induction H; simpl.
  - constructor.
  - destruct (p x); [now constructor | easy].
  - destruct (p x), (p y); try reflexivity; now constructor.
  - now transitivity (filter p l').
Qed.

Lemma np_mean_perm (a b : list R) :
  Permutation a b -> np_mean a = np_mean b.
Proof.
  intros H. unfold np_mean.
  now rewrite (Rsum_perm _ _ H), (Permutation_length H).
Qed.

Lemma np_std_perm (a b : list R) :
  Permutation a b -> np_std a = np_std b.
Proof.
  intros H. unfold np_std. rewrite (np_mean_perm _ _ H).
  destruct (np_mean b); [|reflexivity]. f_equal.
  apply np_mean_perm. now apply Permutation_map.
Qed.

Lemma phi_perm (a b : list R) (obs : R) :
  Permutation a b ->
  calculate_bci_component_phi a obs = calculate_bci_component_phi b obs.
Proof.
  intros H.
  assert (Hb : Permutation (biases_of a obs) (biases_of b obs))
    by now apply Permutation_map.
  unfold calculate_bci_component_phi, directional_agreement,
    magnitude_consistency, bias_mean, bias_std.
  rewrite !(count_perm _ _ _ Hb), (Permutation_length Hb),
    (np_mean_perm _ _ Hb), (np_std_perm _ _ Hb).
  reflexivity.
Qed.

(** In exact arithmetic [calculate_bci] does not depend on the order of
    the members.  (On binary64 numbers it does: see [Binary64Facts].) *)
Lemma calculate_bci_perm_exact
    (members members' : list R) (obs : R) (spread error : option fl) :
  Permutation members members' ->
  calculate_bci members obs spread error
  = calculate_bci members' obs spread error.
Proof.
  intros H. unfold calculate_bci.
  now rewrite (phi_perm _ _ obs H), (np_std_perm _ _ H),
    (np_mean_perm _ _ H).
Qed.

End ScoringFacts.

Module ScoringExamples.
Import Scoring ScoringFacts.

(** Settle the comparisons of concrete rationals that a goal contains. *)
Ltac cmp_eval :=
  repeat match goal with
  | |- context [Rgtb ?x ?y] =>
      first [ rewrite (proj2 (Rgtb_true x y)) by lra
            | rewrite (proj2 (Rgtb_false x y)) by lra ]
  | |- context [Rltb ?x ?y] =>
      first [ rewrite (proj2 (Rltb_true x y)) by lra
            | rewrite (proj2 (Rltb_false x y)) by lra ]
  end.

(** [INR] of a literal as a decimal numeral. *)
Ltac inr_eval :=
  simpl length; simpl Nat.max; rewrite ?INR_IZR_INZ; simpl Z.of_nat.

Ltac clip_eval :=
  first [ rewrite np_clip_inside by lra
        | rewrite np_clip_below by lra
        | rewrite np_clip_above by lra ].

Ltac count_eval := unfold count, biases_of; simpl; cmp_eval; reflexivity.

Ltac sums_eval := simpl; unfold Rsqr; lra.

(** The first scenario of the specification: members 1, 2, 3, 4 around
    the observation 2.5. *)
Example scenario_1234 :
  calculate_bci [1; 2; 3; 4] 2.5 None None
  = (Num (sqrt 0.65), Num 0.65, Num 1).
Proof.
  assert (Hphi : calculate_bci_component_phi [1; 2; 3; 4] 2.5 = Num 0.65).
  { unfold calculate_bci_component_phi.
    rewrite (directional_agreement_eq _ 2 2); [|easy|count_eval..].
    rewrite (magnitude_consistency_eq _ 0 (sqrt 1.25));
      [|easy|sums_eval|apply sqrt_pos|rewrite sqrt_def by lra; sums_eval].
    rewrite Rabs_R0. cmp_eval.
    unfold combined_phi, fadd, fmul, lift2. inr_eval. clip_eval.
    f_equal; lra. }
  unfold calculate_bci. rewrite Hphi.
  rewrite (np_mean_eq _ 2.5) by (easy || sums_eval).
  unfold fsub, lift2, fabs. replace (2.5 - 2.5) with 0 by lra.
  rewrite Rabs_R0.
  unfold calculate_bci_component_rho, spread_skill_ratio, fgtb. cmp_eval.
  clip_eval. unfold fmul, lift2. rewrite fsqrt_num by lra.
  repeat f_equal; lra.
Qed.

(** The second scenario: every member equal to the observation. *)
Example scenario_all_equal :
  calculate_bci [5; 5; 5; 5] 5 None None = (Num (sqrt 0.4), Num 0.4, Num 1).
Proof.
  assert (Hphi : calculate_bci_component_phi [5; 5; 5; 5] 5 = Num 0.4).
  { unfold calculate_bci_component_phi.
    rewrite (directional_agreement_eq _ 0 0); [|easy|count_eval..].
    rewrite (magnitude_consistency_eq _ 0 0);
      [|easy|sums_eval|lra|sums_eval].
    rewrite Rabs_R0. cmp_eval.
    unfold combined_phi, fadd, fmul, lift2. inr_eval. clip_eval.
    f_equal; lra. }
  unfold calculate_bci. rewrite Hphi.
  rewrite (np_mean_eq _ 5) by (easy || sums_eval).
  unfold fsub, lift2, fabs. replace (5 - 5) with 0 by lra.
  rewrite Rabs_R0.
  unfold calculate_bci_component_rho, spread_skill_ratio, fgtb. cmp_eval.
  clip_eval. unfold fmul, lift2. rewrite fsqrt_num by lra.
  repeat f_equal; lra.
Qed.



(** Both fallbacks at once (error 0.05, members 1, 2, 3, 4 around 2.5),
    and the regular branch (members 1 and 3 around 0: mean 2, deviation
    1). *)
Lemma degenerate_fallbacks_witness :
  calculate_bci_component_rho (Num 5) (Num 0.05) = Num 1 /\
  magnitude_consistency (biases_of [1; 2; 3; 4] 2.5) = Num 0.8 /\
  exists s, bias_std (biases_of [1; 3] 0) = Num s /\
    magnitude_consistency (biases_of [1; 3] 0) = Num (1 / (1 + s / 2)).
Proof.
  split; [|split].
  - apply (degenerate_fallbacks (Num 5) 0.05 [] 0 0). lra.
  - apply (degenerate_fallbacks NaN 0 [1; 2; 3; 4] 2.5 0); [|lra].
    unfold bias_mean. rewrite (np_mean_eq _ 0) by (easy || sums_eval).
    simpl. now rewrite Rabs_R0.
  - apply (degenerate_fallbacks NaN 0 [1; 3] 0 2); [|lra].
    unfold bias_mean. rewrite (np_mean_eq _ 2) by (easy || sums_eval).
    simpl. f_equal. apply Rabs_right. lra.
Defined.

(** C3, counterexample: the call on an empty member sequence returns,
    and its rho is the number 1. *)
Lemma calculate_bci_empty_returns :
  calculate_bci [] 0 None None = (NaN, NaN, Num 1).
Proof.
  unfold calculate_bci. rewrite phi_nil, np_std_nil, np_mean_nil.
  simpl. now rewrite rho_nan_error.
Qed.


(** C8 (as the code has it) at magnitude consistency 0.8: the directional
    agreement rises from 0.5 to 1 and phi from 0.65 to 0.9. *)
Lemma combined_phi_increasing_witness :
  combined_phi (Num 0.5) (Num 0.8) = Num 0.65 /\
  combined_phi (Num 1) (Num 0.8) = Num 0.9 /\
  0.65 < 0.9.
Proof.
  assert (E1 : combined_phi (Num 0.5) (Num 0.8) = Num 0.65).
  { unfold combined_phi, fadd, fmul, lift2. clip_eval. f_equal; lra. }
  assert (E2 : combined_phi (Num 1) (Num 0.8) = Num 0.9).
  { unfold combined_phi, fadd, fmul, lift2. clip_eval. f_equal; lra. }
  repeat split; try assumption.
  apply (combined_phi_increasing 0.5 1 0.8 0.65 0.9 ltac:(lra) E1 E2); lra.
Defined.

(** C8, counterexample.  Two ensembles of sixteen members around the
    observation 20, both with mean bias 0.25 and deviation 0.75, hence
    the same magnitude-consistency term 0.25: the directional agreement
    rises from 2/16 to 3/16 and phi stays at the 0.3 clip, as
    [combined_phi] does on those two pairs of terms. *)
Lemma phi_flat_at_lower_clip :
  directional_agreement (biases_of [21; 23; 20; 20; 20; 20; 20; 20; 20; 20; 20; 20; 20; 20; 20; 20] 20) = Num 0.125 /\
  directional_agreement (biases_of [19; 21; 22; 22; 20; 20; 20; 20; 20; 20; 20; 20; 20; 20; 20; 20] 20) = Num 0.1875 /\
  magnitude_consistency (biases_of [21; 23; 20; 20; 20; 20; 20; 20; 20; 20; 20; 20; 20; 20; 20; 20] 20) = Num 0.25 /\
  magnitude_consistency (biases_of [19; 21; 22; 22; 20; 20; 20; 20; 20; 20; 20; 20; 20; 20; 20; 20] 20) = Num 0.25 /\
  calculate_bci_component_phi [21; 23; 20; 20; 20; 20; 20; 20; 20; 20; 20; 20; 20; 20; 20; 20] 20 = Num 0.3 /\
  calculate_bci_component_phi [19; 21; 22; 22; 20; 20; 20; 20; 20; 20; 20; 20; 20; 20; 20; 20] 20 = Num 0.3 /\
  combined_phi (Num 0.125) (Num 0.25) = Num 0.3 /\
  combined_phi (Num 0.1875) (Num 0.25) = Num 0.3.
Proof.
  assert (Hd1 : directional_agreement (biases_of [21; 23; 20; 20; 20; 20; 20; 20; 20; 20; 20; 20; 20; 20; 20; 20] 20) = Num 0.125).
  { rewrite (directional_agreement_eq _ 2 0); [|easy|count_eval..].
    unfold biases_of. inr_eval. f_equal; lra. }
  assert (Hd2 : directional_agreement (biases_of [19; 21; 22; 22; 20; 20; 20; 20; 20; 20; 20; 20; 20; 20; 20; 20] 20) = Num 0.1875).
  { rewrite (directional_agreement_eq _ 3 1); [|easy|count_eval..].
    unfold biases_of. inr_eval. f_equal; lra. }
  assert (Hc1 : magnitude_consistency (biases_of [21; 23; 20; 20; 20; 20; 20; 20; 20; 20; 20; 20; 20; 20; 20; 20] 20) = Num 0.25).
  { rewrite (magnitude_consistency_eq _ 0.25 0.75);
      [|easy|sums_eval|lra|sums_eval].
    rewrite Rabs_right by lra. cmp_eval. f_equal; lra. }
  assert (Hc2 : magnitude_consistency (biases_of [19; 21; 22; 22; 20; 20; 20; 20; 20; 20; 20; 20; 20; 20; 20; 20] 20) = Num 0.25).
  { rewrite (magnitude_consistency_eq _ 0.25 0.75);
      [|easy|sums_eval|lra|sums_eval].
    rewrite Rabs_right by lra. cmp_eval. f_equal; lra. }
  assert (E1 : combined_phi (Num 0.125) (Num 0.25) = Num 0.3).
  { unfold combined_phi, fadd, fmul, lift2. clip_eval. reflexivity. }
  assert (E2 : combined_phi (Num 0.1875) (Num 0.25) = Num 0.3).
  { unfold combined_phi, fadd, fmul, lift2. clip_eval. reflexivity. }
  repeat split; try assumption.
  - unfold calculate_bci_component_phi. now rewrite Hd1, Hc1.
  - unfold calculate_bci_component_phi. now rewrite Hd2, Hc2.
Qed.

End ScoringExamples.

(** ** The scoring engine on binary64 numbers *)

Module Binary64Facts.
Import PrimFloat Binary64.
Local Open Scope float_scope.
Local Set Warnings "-inexact-float".

Lemma count_permutation (p : float -> bool) (a b : list float) :
  Permutation a b -> count p a = count p b.
Proof.
  intros H. unfold count. apply Permutation_length.
  induction H; simpl.
  - constructor.
  - destruct (p x); [now constructor | easy].
  - destruct (p x), (p y); try reflexivity; now constructor.
  - now transitivity (filter p l').
Qed.

Lemma biases_of_permutation (a b : list float) (obs : float) :
  Permutation a b -> Permutation (biases_of a obs) (biases_of b obs).
Proof. intros H. now apply Permutation_map. Qed.

Lemma directional_agreement_permutation (a b : list float) :
  Permutation a b -> directional_agreement a = directional_agreement b.
Proof.
  intros H. unfold directional_agreement.
  now rewrite !(count_permutation _ _ _ H), (Permutation_length H).
Qed.

(** C10 (as the code has it).  A reordering of the members leaves the
    numbers of positive and of negative biases, and with them the
    directional agreement, as they were, and rho too when the spread and
    the error are supplied.  phi is the same for the two orders when the
    mean and the deviation of the biases come out the same, and then the
    whole triple is the same when, in addition, the deviation and the
    mean of the members come out the same where the spread or the error
    is derived from them.  The sums behind these statistics are added in
    the order of the array. *)
Theorem calculate_bci_permutation
    (members members' : list float) (obs : float)
    (spread error : option float) :
  Permutation members members' ->
  let biases := biases_of members obs in
  let biases' := biases_of members' obs in
  count (fun b => 0 <? b) biases' = count (fun b => 0 <? b) biases /\
  count (fun b => b <? 0) biases' = count (fun b => b <? 0) biases /\
  directional_agreement biases' = directional_agreement biases /\
  (forall s e,
     snd (calculate_bci members' obs (Some s) (Some e))
     = snd (calculate_bci members obs (Some s) (Some e))) /\
  (np_mean biases' = np_mean biases -> np_std biases' = np_std biases ->
   calculate_bci_component_phi members' obs
   = calculate_bci_component_phi members obs /\
   ((spread = None -> np_std members' = np_std members) ->
    (error = None -> np_mean members' = np_mean members) ->
    calculate_bci members' obs spread error
    = calculate_bci members obs spread error)).
Proof.
  intros H biases biases'.
  assert (Hb : Permutation biases' biases)
    by (symmetry; now apply biases_of_permutation).
  split; [now apply count_permutation|].
  split; [now apply count_permutation|].
  assert (Hd : directional_agreement biases' = directional_agreement biases)
    by now apply directional_agreement_permutation.
  split; [exact Hd|]. split; [reflexivity|].
  intros Hm Hs.
  assert (Hphi : calculate_bci_component_phi members' obs
                 = calculate_bci_component_phi members obs).
  { unfold calculate_bci_component_phi, magnitude_consistency.
    fold biases biases'. now rewrite Hd, Hm, Hs. }
  split; [exact Hphi|]. intros Hsp He.
  unfold calculate_bci. rewrite Hphi.
  destruct spread as [s|], error as [e|]; try reflexivity.
  - now rewrite (He eq_refl).
  - now rewrite (Hsp eq_refl).
  - now rewrite (Hsp eq_refl), (He eq_refl).
Qed.

(** C10 (as the code has it) on members 1, 2, 3, 4 with the first two
    exchanged: every sum comes out the same and so does the triple. *)
Lemma calculate_bci_permutation_witness :
  calculate_bci [2; 1; 3; 4] 2.5 None None
  = calculate_bci [1; 2; 3; 4] 2.5 None None.
Proof.
  apply (calculate_bci_permutation [1; 2; 3; 4] [2; 1; 3; 4] 2.5 None None
           (perm_swap 2 1 [3; 4]));
    try (vm_compute; reflexivity); intros _; vm_compute; reflexivity.
Defined.

(** C10, counterexample.  The members 1e16, 1, 1, -1e16 and the same
    four values with the two ones first, around the observation 0: in
    the first order the sum of the biases is 0 (each 1 is absorbed by
    1e16), in the second it is 2, and phi is 0.775 against
    0.37500000000000006. *)
Lemma calculate_bci_order_matters :
  Permutation [1e16; 1; 1; -1e16] [1; 1; 1e16; -1e16] /\
  np_sum (biases_of [1e16; 1; 1; -1e16] 0) = 0 /\
  np_sum (biases_of [1; 1; 1e16; -1e16] 0) = 2 /\
  calculate_bci [1e16; 1; 1; -1e16] 0 None None
  = (0.8803408430829505, 0.775, 1) /\
  calculate_bci [1; 1; 1e16; -1e16] 0 None None
  = (0.6123724356957946, 0.37500000000000006, 1).
Proof.
  split.
  - apply perm_trans with [1; 1e16; 1; -1e16];
      [apply perm_swap | apply perm_skip, perm_swap].
  - repeat split; vm_compute; reflexivity.
Qed.

End Binary64Facts.

(** ** Matching and filtering *)

Module MatchingFacts.
Import Scoring Matching.

Lemma loop_from (ensemble_df : list EnsembleRow)
    (matched_df : list MatchedRow) (results : list ScoredRecord) :
  fold_left (loop_body ensemble_df) matched_df results
  = results ++
    map (fun row => scored row (members_of ensemble_df row))
        (filter (enough_members ensemble_df) matched_df).
Proof.
  revert results. induction matched_df as [|row rows IH]; intros results.
  - simpl. now rewrite app_nil_r.
  - simpl. rewrite IH. unfold loop_body, enough_members.
    destruct (Nat.ltb_spec (length (members_of ensemble_df row)) 4) as [Hlt|Hge].
    + destruct (Nat.leb_spec 4 (length (members_of ensemble_df row)));
        [lia | reflexivity].
    + destruct (Nat.leb_spec 4 (length (members_of ensemble_df row)));
        [|lia].
      simpl. now rewrite <- app_assoc.
Qed.

Lemma members_of_spec (ensemble_df : list EnsembleRow) (row : MatchedRow) :
  members_of ensemble_df row
  = map e_temperature
      (filter (fun e => String.eqb (e_storm e) (m_storm row)
                        && Z.eqb (e_valid_time e) (m_valid_time row))
              ensemble_df).
Proof. reflexivity. Qed.

Lemma same_key_iff (row : MatchedRow) (e : EnsembleRow) :
  same_key row e = true
  <-> e_storm e = m_storm row /\ e_valid_time e = m_valid_time row.
Proof.
  unfold same_key. rewrite andb_true_iff, String.eqb_eq, Z.eqb_eq. tauto.
Qed.

(** C4.  The scored dataset is, in the order of the matched rows, one
    record for each matched row whose exact (storm, valid_time) key is
    carried by at least four ensemble rows, and nothing for the other
    rows; so every record has at least four members, the keys of the
    output are those of the qualifying rows in input order, and the
    output is no longer than the input. *)
Theorem process_validation_data_filter
    (matched_df : list MatchedRow) (ensemble_df : list EnsembleRow) :
  let qualifying := filter (enough_members ensemble_df) matched_df in
  let results := process_validation_data matched_df ensemble_df in
  results
  = map (fun row => scored row (members_of ensemble_df row)) qualifying /\
  (forall row, In row qualifying <->
     In row matched_df /\
     (4 <= length (filter (fun e => String.eqb (e_storm e) (m_storm row)
                             && Z.eqb (e_valid_time e) (m_valid_time row))
                          ensemble_df))%nat) /\
  map (fun r => (storm r, valid_time r)) results
  = map (fun row => (m_storm row, m_valid_time row)) qualifying /\
  Forall (fun r => (4 <= n_members r)%nat) results /\
  (length results <= length matched_df)%nat.
Proof.
  intros qualifying results.
  assert (E : results
    = map (fun row => scored row (members_of ensemble_df row)) qualifying).
  { unfold results, process_validation_data. now rewrite loop_from. }
  split; [exact E|]. split; [|split; [|split]].
  - intros row. unfold qualifying. rewrite filter_In.
    unfold enough_members, members_of. rewrite length_map.
    now rewrite Nat.leb_le.
  - rewrite E, map_map. apply map_ext. intros row. unfold scored.
    now destruct (calculate_bci _ _ _ _) as [[? ?] ?].
  - rewrite E. apply Forall_forall. intros r Hr.
    apply in_map_iff in Hr. destruct Hr as (row & <- & Hin).
    apply filter_In in Hin. destruct Hin as [_ Hin].
    unfold enough_members in Hin. apply Nat.leb_le in Hin.
    unfold scored. now destruct (calculate_bci _ _ _ _) as [[? ?] ?].
  - rewrite E, length_map. apply filter_length_le.
Qed.


End MatchingFacts.

(** ** Partial correlation *)

Module ValidationFacts.
Import Validation.

Lemma Reqb_true (x y : R) : Reqb x y = true <-> x = y.
Proof. unfold Reqb. destruct (Req_dec_T x y); split; intros; easy. Qed.

Lemma Rsum_cons (x : R) (l : list R) : Rsum (x :: l) = x + Rsum l.
Proof. reflexivity. Qed.

Lemma zip_with_length {A B C} (f : A -> B -> C) (xs : list A) (ys : list B) :
  length xs = length ys -> length (zip_with f xs ys) = length xs.
Proof.
  revert ys. induction xs as [|x xs IH]; intros [|y ys] H; simpl in *;
    try easy. f_equal. apply IH. lia.
Qed.

Lemma add_linear_length (v control : list R) (a b : R) :
  length v = length control -> length (add_linear v control a b) = length v.
Proof. apply zip_with_length. Qed.

Lemma Rsum_add_linear (v control : list R) (a b : R) :
  length v = length control ->
  Rsum (add_linear v control a b)
  = Rsum v + a * Rsum control + b * INR (length v).
Proof.
  revert control.
  induction v as [|x v IH]; intros [|c control] H; try easy.
  - simpl. lra.
  - injection H as H. unfold add_linear in *.
    cbn [zip_with]. rewrite !Rsum_cons, (IH _ H).
    change (length (x :: v)) with (S (length v)).
    rewrite S_INR. lra.
Qed.

(** The cross sum of the deviations grows by [a] times the sum of squares
    of the control. *)
Lemma cross_sum_add_linear (v control : list R) (a b mc mv : R) :
  length v = length control ->
  Rsum (zip_with (fun c x => (c - mc) * (x - (mv + a * mc + b)))
          control (add_linear v control a b))
  = Rsum (zip_with (fun c x => (c - mc) * (x - mv)) control v)
    + a * Rsum (map (fun c => (c - mc) * (c - mc)) control).
Proof.
  revert control.
  induction v as [|x v IH]; intros [|c control] H; try easy.
  - simpl. lra.
  - injection H as H. unfold add_linear in *.
    cbn [zip_with map]. rewrite !Rsum_cons, (IH _ H). lra.
Qed.

Lemma residual_add_linear_pointwise (v control : list R) (a b sl ic : R) :
  length v = length control ->
  zip_with Rminus (add_linear v control a b)
    (np_polyval1 (sl + a, ic + b) control)
  = zip_with Rminus v (np_polyval1 (sl, ic) control).
Proof.
  revert control.
  induction v as [|x v IH]; intros [|c control] H; try easy.
  injection H as H. unfold add_linear, np_polyval1 in *.
  cbn [zip_with map fst snd] in *. rewrite (IH _ H). f_equal. lra.
Qed.

Lemma np_polyfit1_some (x y : list R) :
  length x = length y -> x <> [] ->
  Rsum (map (fun a => (a - Rsum x / INR (length x))
                      * (a - Rsum x / INR (length x))) x) <> 0 ->
  exists p, np_polyfit1 x y = Some p.
Proof.
  intros Hl Hne Hs. unfold np_polyfit1.
  rewrite Hl, Nat.eqb_refl. rewrite <- Hl.
  destruct x; [easy|]. cbn [negb orb length Nat.eqb].
  destruct (Req_dec_T _ 0) as [E|E]; [|eauto].
  exfalso. apply Hs. exact E.
Qed.

(** Fitting [v + a * control + b] against the control adds [a] to the
    slope and [b] to the intercept. *)
Lemma np_polyfit1_add_linear (v control : list R) (a b sl ic : R) :
  length v = length control ->
  np_polyfit1 control v = Some (sl, ic) ->
  np_polyfit1 control (add_linear v control a b) = Some (sl + a, ic + b).
Proof.
  intros Hl. unfold np_polyfit1.
  rewrite add_linear_length by easy. rewrite <- Hl, Nat.eqb_refl.
  cbn [negb orb].
  destruct (length v =? 0)%nat eqn:E0; [easy|].
  apply Nat.eqb_neq in E0.
  assert (Hn : 0 < INR (length v)) by (apply lt_0_INR; lia).
  set (n := INR (length v)) in *.
  set (mc := Rsum control / n).
  set (sxx := Rsum (map (fun c => (c - mc) * (c - mc)) control)).
  destruct (Req_dec_T sxx 0) as [Ez|Enz]; [easy|].
  intros E. injection E as Esl Eic.
  rewrite Rsum_add_linear by easy. fold n.
  replace ((Rsum v + a * Rsum control + b * n) / n)
    with (Rsum v / n + a * mc + b) by (unfold mc; field; lra).
  rewrite cross_sum_add_linear by easy. fold sxx.
  f_equal. f_equal.
  - rewrite <- Esl. field. repeat split; try assumption; lra.
  - rewrite <- Eic. field. repeat split; try assumption; lra.
Qed.

(** *** The fitted line is the least-squares line *)

Lemma Rsum_squares_nonneg (m : R) (l : list R) :
  0 <= Rsum (map (fun c => (c - m) * (c - m)) l).
Proof.
  induction l as [|c l IH]; cbn [map]; [simpl; lra|].
  rewrite Rsum_cons. pose proof (Rle_0_sqr (c - m)) as Hc.
  unfold Rsqr in Hc. lra.
Qed.

Lemma Rsum_centered (l : list R) (m : R) :
  Rsum (map (fun a => a - m) l) = Rsum l - INR (length l) * m.
Proof.
  induction l as [|a l IH]; [simpl; lra|].
  cbn [map]. rewrite !Rsum_cons, IH.
  change (length (a :: l)) with (S (length l)). rewrite S_INR. lra.
Qed.

(** The squared error of the line [(m, k)], expanded around the point
    [(mx, my)]. *)
Lemma squared_error_expand (x y : list R) (mx my m k : R) :
  length x = length y ->
  let c := my - m * mx - k in
  squared_error (m, k) x y
  = Rsum (map (fun b => (b - my) * (b - my)) y)
    - 2 * m * Rsum (zip_with (fun a b => (a - mx) * (b - my)) x y)
    + m * m * Rsum (map (fun a => (a - mx) * (a - mx)) x)
    + 2 * c * (Rsum (map (fun b => b - my) y)
               - m * Rsum (map (fun a => a - mx) x))
    + INR (length x) * (c * c).
Proof.
  intros Hl c. unfold squared_error, np_polyval1. cbn [fst snd].
  revert y Hl. induction x as [|a x IH]; intros [|b y] Hl; try easy.
  - simpl. lra.
  - injection Hl as Hl. cbn [map zip_with]. rewrite !Rsum_cons.
    rewrite (IH _ Hl).
    change (length (a :: x)) with (S (length x)). rewrite S_INR.
    unfold c. ring.
Qed.

(** Where the fit is defined, no line has a smaller sum of squared
    errors on the points than the fitted one. *)
Lemma np_polyfit1_least_squares (x y : list R) (slope intercept : R) :
  np_polyfit1 x y = Some (slope, intercept) ->
  forall m k, squared_error (slope, intercept) x y <= squared_error (m, k) x y.
Proof.
  unfold np_polyfit1.
  destruct (Nat.eqb_spec (length x) (length y)) as [Hl|]; [|easy].
  cbn [negb orb].
  destruct (Nat.eqb_spec (length x) 0) as [|Hn]; [easy|].
  set (n := INR (length x)).
  assert (Hn0 : 0 < n) by (apply lt_0_INR; lia).
  set (mx := Rsum x / n). set (my := Rsum y / n).
  set (sxx := Rsum (map (fun a => (a - mx) * (a - mx)) x)).
  set (sxy := Rsum (zip_with (fun a b => (a - mx) * (b - my)) x y)).
  destruct (Req_dec_T sxx 0) as [|Hs]; [easy|].
  intros E m k. injection E as <- <-.
  rewrite !(squared_error_expand x y mx my) by easy. cbv zeta.
  fold sxx sxy n.
  assert (Hx : Rsum (map (fun a => a - mx) x) = 0).
  { rewrite Rsum_centered. fold n. unfold mx. field. lra. }
  assert (Hy : Rsum (map (fun b => b - my) y) = 0).
  { rewrite Rsum_centered, <- Hl. fold n. unfold my. field. lra. }
  rewrite Hx, Hy.
  assert (Hpos : 0 < sxx).
  { pose proof (Rsum_squares_nonneg mx x) as H0. fold sxx in H0. lra. }
  replace (my - sxy / sxx * mx - (my - sxy / sxx * mx)) with 0 by ring.
  set (c := my - m * mx - k).
  assert (Hd : - 2 * m * sxy + m * m * sxx
               - (- 2 * (sxy / sxx) * sxy + sxy / sxx * (sxy / sxx) * sxx)
               = sxx * ((m - sxy / sxx) * (m - sxy / sxx))).
  { field. lra. }
  pose proof (Rle_0_sqr (m - sxy / sxx)) as H1. unfold Rsqr in H1.
  pose proof (Rle_0_sqr c) as H2. unfold Rsqr in H2.
  assert (0 <= sxx * ((m - sxy / sxx) * (m - sxy / sxx)))
    by (apply Rmult_le_pos; lra).
  assert (0 <= n * (c * c)) by (apply Rmult_le_pos; lra).
  lra.
Qed.

(** *** A control that is not constant can be fitted *)

Lemma Rsum_squares_zero (m : R) (l : list R) :
  Rsum (map (fun c => (c - m) * (c - m)) l) = 0 ->
  Forall (fun c => c = m) l.
Proof.
  induction l as [|c l IH]; cbn [map]; [constructor|].
  rewrite Rsum_cons. intros H.
  pose proof (Rsum_squares_nonneg m l) as Hl.
  pose proof (Rle_0_sqr (c - m)) as Hc. unfold Rsqr in Hc.
  constructor.
  - assert (E : (c - m) * (c - m) = 0) by lra.
    apply Rmult_integral in E. lra.
  - apply IH. lra.
Qed.

Lemma all_equal_of_Forall (m : R) (l : list R) :
  Forall (fun c => c = m) l -> all_equal l = true.
Proof.
  intros H. destruct l as [|x l]; [reflexivity|].
  unfold all_equal. apply forallb_forall. intros a Ha.
  apply Reqb_true. rewrite Forall_forall in H.
  rewrite (H a Ha). symmetry. apply H. now left.
Qed.

Lemma not_constant_spread (control : list R) :
  all_equal control = false ->
  Rsum (map (fun c => (c - Rsum control / INR (length control))
                      * (c - Rsum control / INR (length control)))
            control) <> 0.
Proof.
  intros H E. apply Rsum_squares_zero in E.
  apply all_equal_of_Forall in E. congruence.
Qed.

Lemma not_constant_length (control : list R) :
  all_equal control = false -> (2 <= length control)%nat.
Proof.
  destruct control as [|a [|b l]]; simpl; try easy; [|lia].
  rewrite (proj2 (Reqb_true a a) eq_refl). easy.
Qed.

(** The call [np.polyfit] returns for arrays of one length that are not
    empty, whatever the solve. *)
Lemma residual_some (lstsq : list R -> list R -> R * R) (v control : list R) :
  length v = length control -> control <> [] ->
  exists res, residual lstsq v control = Some res /\
              length res = length control.
Proof.
  intros Hl Hne. unfold residual, np_polyfit.
  rewrite Hl, Nat.eqb_refl. cbn [negb orb].
  destruct control as [|c control']; [easy|]. cbn [length Nat.eqb].
  eexists. split; [reflexivity|].
  rewrite zip_with_length; unfold np_polyval1; rewrite ?length_map; easy.
Qed.

Lemma residual_none (lstsq : list R -> list R -> R * R) (v : list R) :
  residual lstsq v [] = None.
Proof. unfold residual, np_polyfit. now destruct v. Qed.

Lemma pearsonr_some (pv : nat -> R -> R) (x y : list R) :
  length x = length y -> (2 <= length x)%nat ->
  exists r p, pearsonr pv x y = Some (r, p).
Proof.
  intros Hl Hn. unfold pearsonr. rewrite Hl, Nat.eqb_refl. cbn [negb orb].
  destruct (Nat.ltb_spec (length y) 2); [lia|].
  destruct (all_equal x || all_equal y); eauto.
Qed.

Lemma pearsonr_short (pv : nat -> R -> R) (x y : list R) :
  (length x < 2)%nat -> pearsonr pv x y = None.
Proof.
  intros H. unfold pearsonr.
  destruct (Nat.ltb_spec (length x) 2) as [_|]; [|lia].
  now rewrite orb_true_r.
Qed.

(** *** The solve in exact arithmetic *)

Lemma np_polyfit_exact (x y : list R) (p : R * R) :
  np_polyfit1 x y = Some p -> np_polyfit exact_lstsq x y = Some p.
Proof.
  intros E. unfold np_polyfit, exact_lstsq. rewrite E.
  unfold np_polyfit1 in E.
  now destruct (negb (length x =? length y)%nat || (length x =? 0)%nat).
Qed.

Lemma np_polyfit1_not_constant (v control : list R) :
  length v = length control -> all_equal control = false ->
  exists sl ic, np_polyfit1 control v = Some (sl, ic).
Proof.
  intros Hl Hc. pose proof (not_constant_length _ Hc) as Hn.
  destruct (np_polyfit1_some control v) as [[sl ic] Hp]; eauto.
  - destruct control; simpl in Hn; [lia | easy].
  - now apply not_constant_spread.
Qed.

Lemma residual_add_linear (v control : list R) (a b : R) :
  length v = length control -> all_equal control = false ->
  residual exact_lstsq (add_linear v control a b) control
  = residual exact_lstsq v control.
Proof.
  intros Hl Hc.
  destruct (np_polyfit1_not_constant v control Hl Hc) as (sl & ic & E).
  unfold residual.
  rewrite (np_polyfit_exact _ _ _ E).
  rewrite (np_polyfit_exact _ _ _ (np_polyfit1_add_linear _ _ a b _ _ Hl E)).
  now rewrite residual_add_linear_pointwise.
Qed.

(** With the solve of exact arithmetic and a control that is not
    constant (and arrays of its length), adding [a * control + b] to
    [x], or to [y], changes neither the coefficient nor the p-value that
    [partial_correlation] returns.  (The solve that numpy runs works in
    binary64 and leaves rounding noise in the residuals: this is a fact
    of the least-squares line, not of that solve.) *)
Lemma partial_correlation_add_linear_exact
    (pv : nat -> R -> R) (x y control : list R) (a b : R) :
  length x = length control -> length y = length control ->
  all_equal control = false ->
  partial_correlation exact_lstsq pv (add_linear x control a b) y control
  = partial_correlation exact_lstsq pv x y control /\
  partial_correlation exact_lstsq pv x (add_linear y control a b) control
  = partial_correlation exact_lstsq pv x y control.
Proof.
  intros Hx Hy Hc. unfold partial_correlation.
  rewrite !residual_add_linear by easy. now split.
Qed.

(** *** A signal against itself *)

Lemma zip_with_diag {A C} (f : A -> A -> C) (l : list A) :
  zip_with f l l = map (fun a => f a a) l.
Proof. induction l as [|a l IH]; simpl; [easy | now rewrite IH]. Qed.

Lemma Rsum_map_scaled (n : R) (l : list R) :
  Rsum (map (fun a => a / n * (a / n)) l)
  = Rsum (map (fun a => a * a) l) * (/ n * / n).
Proof.
  induction l as [|a l IH]; [simpl; lra|].
  cbn [map]. rewrite !Rsum_cons, IH. unfold Rdiv. ring.
Qed.

(** The correlation of a sequence with itself: undefined (NaN) when the
    sequence is constant, and otherwise the sum of the squares of its
    normalised deviations, which is 1 in exact arithmetic. *)
Lemma pearsonr_self (pv : nat -> R -> R) (v : list R) :
  (2 <= length v)%nat ->
  exists r p, pearsonr pv v v = Some (r, p) /\
    (all_equal v = true -> r = NaN /\ p = NaN) /\
    (all_equal v = false -> r = Num 1).
Proof.
  intros Hn. unfold pearsonr. rewrite Nat.eqb_refl. cbn [negb orb].
  destruct (Nat.ltb_spec (length v) 2) as [|_]; [lia|].
  rewrite orb_diag. destruct (all_equal v) eqn:Hc.
  - do 2 eexists. split; [reflexivity|]. split; [now split | discriminate].
  - do 2 eexists. split; [reflexivity|]. split; [discriminate|].
    intros _. f_equal.
    set (m := Rsum v / INR (length v)).
    set (xm := map (fun a => a - m) v).
    set (S := Rsum (map (fun a => a * a) xm)).
    assert (HS : S = Rsum (map (fun a => (a - m) * (a - m)) v)).
    { unfold S, xm. now rewrite map_map. }
    assert (Hpos : 0 < S).
    { pose proof (Rsum_squares_nonneg m v) as H0. rewrite <- HS in H0.
      pose proof (not_constant_spread v Hc) as H1. fold m in H1.
      rewrite <- HS in H1. lra. }
    rewrite zip_with_diag, Rsum_map_scaled. fold S.
    assert (Hq : sqrt S * sqrt S = S) by (apply sqrt_sqrt; lra).
    assert (Hs : 0 < sqrt S) by now apply sqrt_lt_R0.
    replace (S * (/ sqrt S * / sqrt S)) with 1.
    + unfold Rmin, Rmax. destruct (Rle_dec 1 1); [|lra].
      destruct (Rle_dec 1 (-1)); lra.
    + rewrite <- Hq at 1. field. lra.
Qed.

(** [partial_correlation(x, x, x)], whatever the solve returns: both
    residual sequences are one and the same sequence. *)
Lemma partial_correlation_self_residual
    (lstsq : list R -> list R -> R * R) (pv : nat -> R -> R) (x : list R) :
  x <> [] ->
  exists res,
    residual lstsq x x = Some res /\ length res = length x /\
    partial_correlation lstsq pv x x x = pearsonr pv res res.
Proof.
  intros Hne.
  destruct (residual_some lstsq x x eq_refl Hne) as (res & E & L).
  exists res. split; [exact E|]. split; [exact L|].
  unfold partial_correlation. now rewrite E.
Qed.

Lemma partial_correlation_self_not_zero
    (lstsq : list R -> list R -> R * R) (pv : nat -> R -> R) (x : list R)
    (p : fl) :
  partial_correlation lstsq pv x x x <> Some (Num 0, p).
Proof.
  intros E. destruct x as [|x0 x'].
  - unfold partial_correlation in E. now rewrite residual_none in E.
  - destruct (partial_correlation_self_residual lstsq pv (x0 :: x'))
      as (res & _ & L & Epc); [easy|].
    rewrite Epc in E.
    destruct (Nat.ltb_spec (length res) 2) as [Hlt|Hge].
    + now rewrite pearsonr_short in E.
    + destruct (pearsonr_self pv res Hge) as (r & q & Er & Hc & Hn).
      rewrite Er in E. injection E as -> ->.
      destruct (all_equal res).
      * now destruct Hc.
      * specialize (Hn eq_refl). injection Hn as Hn. lra.
Qed.

(** C9 (as the code has it).  [partial_correlation(x, x, x)] raises on
    fewer than two points.  On two or more, whatever coefficients the
    solve returns, the two residual sequences are one and the same
    sequence and the result is the correlation of that sequence with
    itself: (NaN, NaN) when the residuals are all equal (as when the fit
    is exact and every residual is 0), and otherwise a coefficient that
    is positive and at most 1.  It is never 0. *)
Theorem partial_correlation_self
    (lstsq : list R -> list R -> R * R) (pv : nat -> R -> R) (x : list R) :
  ((length x < 2)%nat -> partial_correlation lstsq pv x x x = None) /\
  ((2 <= length x)%nat ->
   exists res r p,
     residual lstsq x x = Some res /\
     partial_correlation lstsq pv x x x = pearsonr pv res res /\
     pearsonr pv res res = Some (r, p) /\
     (all_equal res = true -> r = NaN /\ p = NaN) /\
     (all_equal res = false -> exists c, r = Num c /\ 0 < c <= 1) /\
     r <> Num 0).
Proof.
  split.
  - intros Hlt. destruct x as [|x0 x'].
    + unfold partial_correlation. now rewrite residual_none.
    + destruct (partial_correlation_self_residual lstsq pv (x0 :: x'))
        as (res & _ & L & ->); [easy|].
      apply pearsonr_short. now rewrite L.
  - intros Hge.
    destruct (partial_correlation_self_residual lstsq pv x)
      as (res & E & L & Epc); [destruct x; simpl in Hge; [lia | easy]|].
    rewrite <- L in Hge.
    destruct (pearsonr_self pv res Hge) as (r & p & Er & Hc & Hn).
    exists res, r, p. repeat split; try assumption.
    + now apply Hc.
    + now apply Hc.
    + intros Hf. exists 1. split; [now apply Hn | lra].
    + destruct (all_equal res).
      * destruct Hc as [-> _]; [reflexivity | discriminate].
      * rewrite Hn by reflexivity. intros H. injection H as H. lra.
Qed.

Lemma Reqb_false (x y : R) : Reqb x y = false <-> x <> y.
Proof. unfold Reqb. destruct (Req_dec_T x y); split; intros; easy. Qed.

Lemma all_equal_false_intro (x0 a : R) (l : list R) :
  In a (x0 :: l) -> a <> x0 -> all_equal (x0 :: l) = false.
Proof.
  intros Hin Hne. destruct (all_equal (x0 :: l)) eqn:E; [|reflexivity].
  unfold all_equal in E. rewrite forallb_forall in E.
  apply E, Reqb_true in Hin. contradiction.
Qed.

End ValidationFacts.

(** ** The high-error label *)

Module BaselineFacts.
Import Validation ValidationFacts.

Lemma Rleb_true (x y : R) : Rleb x y = true <-> x <= y.
Proof. unfold Rleb. destruct (Rle_dec x y); split; intros; easy. Qed.

Lemma Rleb_false (x y : R) : Rleb x y = false <-> y < x.
Proof.
  unfold Rleb. destruct (Rle_dec x y); split; intros; try easy; lra.
Qed.

Lemma insert_sorted_perm (x : R) (l : list R) :
  Permutation (insert_sorted x l) (x :: l).
Proof.
  induction l as [|y l IH]; simpl; [reflexivity|].
  destruct (Rleb x y); [reflexivity|].
  rewrite IH. apply perm_swap.
Qed.

Lemma sort_perm (l : list R) : Permutation (sort l) l.
Proof.
  induction l as [|x l IH]; simpl; [constructor|].
  rewrite insert_sorted_perm. now constructor.
Qed.

Lemma insert_sorted_sorted (x : R) (l : list R) :
  StronglySorted Rle l -> StronglySorted Rle (insert_sorted x l).
Proof.
  induction 1 as [|y l Hs IH Hy]; simpl.
  - repeat constructor.
  - destruct (Rleb x y) eqn:E.
    + apply Rleb_true in E. constructor; [now constructor|].
      constructor; [exact E|].
      eapply Forall_impl; [|exact Hy]. intros z Hz. simpl in Hz. lra.
    + apply Rleb_false in E. constructor; [exact IH|].
      rewrite insert_sorted_perm. constructor; [lra | exact Hy].
Qed.

Lemma sort_sorted (l : list R) : StronglySorted Rle (sort l).
Proof.
  induction l as [|x l IH]; simpl; [constructor|].
  now apply insert_sorted_sorted.
Qed.

Lemma sort_length (l : list R) : length (sort l) = length l.
Proof. apply Permutation_length, sort_perm. Qed.

(** The count of ones in a list of 0/1 labels built from a test. *)
Lemma sum_labels {A} (p : A -> bool) (l : list A) :
  fold_right Nat.add 0%nat (map (fun a => if p a then 1%nat else 0%nat) l)
  = length (filter p l).
Proof.
  induction l as [|a l IH]; simpl; [reflexivity|].
  rewrite IH. now destruct (p a).
Qed.

(** The threshold of a non-empty table, spelled out on the sorted
    errors. *)
Lemma error_threshold_num (df : list Row) :
  df <> [] ->
  let n := length df in
  let sorted := sort (map mean_error df) in
  error_threshold df
  = Num (nth (3 * (n - 1) / 4) sorted 0
         + (nth (Nat.min (3 * (n - 1) / 4 + 1) (n - 1)) sorted 0
            - nth (3 * (n - 1) / 4) sorted 0)
           * (INR ((3 * (n - 1)) mod 4) / INR 4)).
Proof.
  intros H. unfold error_threshold, quantile.
  destruct df as [|r df]; [easy|]. cbn [map].
  now rewrite <- (length_map mean_error (r :: df)).
Qed.

Lemma Forall2_map_self {A B} (P : A -> B -> Prop) (f : A -> B)
    (l : list A) :
  (forall a, P a (f a)) -> Forall2 P l (map f l).
Proof. intros H. induction l; simpl; constructor; auto. Qed.

(** C6.  The threshold of a non-empty table is the 75th percentile of the
    [mean_error] column (linear interpolation between the order
    statistics at position [0.75 * (n - 1)]); a record is labelled 1
    exactly when its error is strictly above the threshold and 0
    otherwise; and the sum of the labels is the number of records
    strictly above the threshold. *)
Theorem high_error_labels (df : list Row) :
  df <> [] ->
  exists (t : R) (sorted : list R),
    error_threshold df = Num t /\
    Permutation sorted (map mean_error df) /\
    StronglySorted Rle sorted /\
    (let n := length df in
     let lower := (3 * (n - 1) / 4)%nat in
     let upper := Nat.min (lower + 1) (n - 1) in
     t = nth lower sorted 0
         + (nth upper sorted 0 - nth lower sorted 0)
           * (INR ((3 * (n - 1)) mod 4) / 4)) /\
    Forall2 (fun r label =>
               (label = 1%nat <-> mean_error r > t) /\
               (label = 0%nat <-> mean_error r <= t))
            df (high_error df) /\
    high_error_count df
    = length (filter (fun r => Rgtb (mean_error r) t) df).
Proof.
  intros H. pose proof (error_threshold_num df H) as E. cbv zeta in E.
  match type of E with _ = Num ?v => exists v end.
  exists (sort (map mean_error df)).
  split; [exact E|]. split; [apply sort_perm|].
  split; [apply sort_sorted|].
  split; [cbv zeta; f_equal; f_equal; f_equal; simpl; lra|].
  match type of E with _ = Num ?v => set (t := v) in * end.
  assert (Hl : high_error df
    = map (fun r => if Rgtb (mean_error r) t then 1%nat else 0%nat) df).
  { unfold high_error. rewrite E. reflexivity. }
  split.
  - rewrite Hl. apply Forall2_map_self. intros r.
    destruct (Rgtb (mean_error r) t) eqn:Er.
    + apply Rgtb_true in Er. split; split; intros; try easy; lra.
    + apply Rgtb_false in Er. split; split; intros; try easy; lra.
  - unfold high_error_count. rewrite Hl. apply sum_labels.
Qed.

(** *** The labelled records are the top quarter *)

Lemma sorted_nth_le (s : list R) (i j : nat) :
  StronglySorted Rle s -> (i <= j)%nat -> (j < length s)%nat ->
  nth i s 0 <= nth j s 0.
Proof.
  intros Hs. revert i j. induction Hs as [|a s Hs IH Ha]; intros i j Hij Hj.
  - simpl in Hj. lia.
  - destruct j as [|j].
    + replace i with 0%nat by lia. simpl. lra.
    + simpl in Hj. destruct i as [|i].
      * simpl. rewrite Forall_forall in Ha. apply Ha, nth_In. lia.
      * simpl. apply IH; lia.
Qed.

Lemma count_above_sorted (s : list R) (lower : nat) :
  StronglySorted Rle s -> (lower < length s)%nat ->
  (length (filter (fun v => Rgtb v (nth lower s 0%R)) s)
   <= length s - (lower + 1))%nat.
Proof.
  intros Hs. revert lower.
  induction Hs as [|a s Hs IH Ha]; intros lower Hl; simpl in Hl; [lia|].
  assert (Hhead : Rgtb a (nth lower (a :: s) 0) = false).
  { apply Rgtb_false. destruct lower as [|lower]; simpl; [lra|].
    rewrite Forall_forall in Ha. apply Ha, nth_In. lia. }
  cbn [filter]. rewrite Hhead. destruct lower as [|lower].
  - simpl. pose proof (filter_length_le (fun v => Rgtb v a) s). lia.
  - simpl. specialize (IH lower). lia.
Qed.

Lemma filter_length_impl {A} (p q : A -> bool) (l : list A) :
  (forall a, p a = true -> q a = true) ->
  (length (filter p l) <= length (filter q l))%nat.
Proof.
  intros H. induction l as [|a l IH]; simpl; [lia|].
  destruct (p a) eqn:E.
  - rewrite (H a E). simpl. lia.
  - destruct (q a); simpl; lia.
Qed.

Lemma filter_length_perm {A} (p : A -> bool) (l l' : list A) :
  Permutation l l' -> length (filter p l) = length (filter p l').
Proof.
  intros H. induction H; simpl.
  - reflexivity.
  - destruct (p x); simpl; lia.
  - destruct (p x), (p y); reflexivity.
  - lia.
Qed.

Lemma filter_map_length {A B} (f : A -> B) (p : B -> bool) (l : list A) :
  length (filter (fun a => p (f a)) l) = length (filter p (map f l)).
Proof.
  induction l as [|a l IH]; simpl; [reflexivity|].
  destruct (p (f a)); simpl; now rewrite IH.
Qed.

(** Of [n] records at most [(n - 1) - floor(3 (n - 1) / 4)], a quarter
    rounded up, are labelled high-error. *)
Lemma high_error_top_quarter (df : list Row) :
  df <> [] ->
  (high_error_count df
   <= (length df - 1) - 3 * (length df - 1) / 4)%nat.
Proof.
  intros H. pose proof (error_threshold_num df H) as E. cbv zeta in E.
  set (n := length df) in *.
  set (s := sort (map mean_error df)) in *.
  set (lower := (3 * (n - 1) / 4)%nat) in *.
  set (upper := Nat.min (lower + 1) (n - 1)) in *.
  assert (Hn : (0 < n)%nat) by (unfold n; destruct df; simpl; [easy | lia]).
  assert (Hlen : length s = n)
    by (unfold s; now rewrite sort_length, length_map).
  assert (Hlow : (lower <= n - 1)%nat).
  { unfold lower. apply Nat.Div0.div_le_upper_bound. lia. }
  assert (Hup : (lower <= upper)%nat) by (unfold upper; lia).
  pose proof (sorted_nth_le s lower upper (sort_sorted _) Hup
                ltac:(unfold upper; lia)) as Hab.
  assert (Hg : 0 <= INR ((3 * (n - 1)) mod 4) / INR 4).
  { apply Rmult_le_pos; [apply pos_INR|].
    left. apply Rinv_0_lt_compat. simpl. lra. }
  match type of E with _ = Num ?v => set (t := v) in * end.
  assert (Ht : nth lower s 0 <= t) by (unfold t; nra).
  unfold high_error_count, high_error. rewrite E. unfold fgtb.
  rewrite sum_labels.
  rewrite (filter_map_length mean_error (fun v => Rgtb v t)).
  rewrite <- (filter_length_perm (fun v => Rgtb v t) _ _
                (sort_perm (map mean_error df))).
  fold s.
  etransitivity.
  - apply (filter_length_impl _ (fun v => Rgtb v (nth lower s 0))).
    intros v Hv. apply Rgtb_true in Hv. apply Rgtb_true. lra.
  - pose proof (count_above_sorted s lower (sort_sorted _)
                  ltac:(lia)) as Hc.
    lia.
Qed.

End BaselineFacts.

(** ** The per-storm table *)

Module StormFacts.
Import Validation.

Lemma name_lt_trans (a b c : string) :
  name_lt a b -> name_lt b c -> name_lt a c.
Proof.
  unfold name_lt. rewrite !(String_as_OT.cmp_lt : forall a b, _ <-> _).
  apply String_as_OT.lt_trans.
Qed.

Lemma name_lt_irrefl (a : string) : ~ name_lt a a.
Proof.
  unfold name_lt. intros H.
  assert (E : String.compare a a = Eq) by now apply String_as_OT.cmp_eq.
  congruence.
Qed.

Lemma compare_Gt_lt (a b : string) :
  String.compare a b = Gt -> name_lt b a.
Proof.
  unfold name_lt. intros H. rewrite String.compare_antisym, H. reflexivity.
Qed.

Lemma insert_key_In (k k' : string) (keys : list string) :
  In k' (insert_key k keys) <-> k' = k \/ In k' keys.
Proof.
  induction keys as [|h keys IH]; simpl.
  - intuition.
  - destruct (String.compare k h) eqn:E; simpl.
    + apply String.compare_eq_iff in E. subst h. intuition.
    + intuition.
    + rewrite IH. intuition.
Qed.

Lemma insert_key_sorted (k : string) (keys : list string) :
  StronglySorted name_lt keys -> StronglySorted name_lt (insert_key k keys).
Proof.
  induction 1 as [|h keys Hs IH Hh]; simpl.
  - repeat constructor.
  - destruct (String.compare k h) eqn:E.
    + now constructor.
    + constructor; [now constructor|]. constructor; [exact E|].
      eapply Forall_impl; [|exact Hh]. intros z Hz.
      now apply (name_lt_trans k h z).
    + constructor; [exact IH|]. apply Forall_forall. intros z Hz.
      apply insert_key_In in Hz. destruct Hz as [-> | Hz].
      * now apply compare_Gt_lt.
      * rewrite Forall_forall in Hh. now apply Hh.
Qed.

Lemma group_keys_sorted (df : list Row) :
  StronglySorted name_lt (group_keys df).
Proof.
  unfold group_keys. induction (map storm df) as [|k ks IH]; simpl.
  - constructor.
  - now apply insert_key_sorted.
Qed.

Lemma group_keys_In (df : list Row) (k : string) :
  In k (group_keys df) <-> In k (map storm df).
Proof.
  unfold group_keys. induction (map storm df) as [|h ks IH]; simpl.
  - reflexivity.
  - rewrite insert_key_In, IH. intuition.
Qed.


Lemma group_rows_nonempty (df : list Row) (k : string) :
  In k (group_keys df) -> group_rows df k <> [].
Proof.
  rewrite group_keys_In, in_map_iff. intros (r & E & Hr) Hnil.
  assert (Hin : In r (group_rows df k)).
  { unfold group_rows. apply filter_In. split; [exact Hr|].
    now apply String.eqb_eq. }
  rewrite Hnil in Hin. exact Hin.
Qed.

Lemma insert_by_N_perm (s : StormStats) (l : list StormStats) :
  Permutation (insert_by_N s l) (s :: l).
Proof.
  induction l as [|t l IH]; simpl; [reflexivity|].
  destruct (N t <=? N s)%nat; [reflexivity|].
  rewrite IH. apply perm_swap.
Qed.

Lemma sort_values_N_desc_perm (l : list StormStats) :
  Permutation (sort_values_N_desc l) l.
Proof.
  induction l as [|s l IH]; simpl; [constructor|].
  rewrite insert_by_N_perm. now constructor.
Qed.

Lemma insert_by_N_sorted (s : StormStats) (l : list StormStats) :
  StronglySorted N_ge l -> StronglySorted N_ge (insert_by_N s l).
Proof.
  induction 1 as [|t l Hs IH Ht]; simpl.
  - repeat constructor.
  - destruct (Nat.leb_spec (N t) (N s)) as [Hle|Hgt].
    + constructor; [now constructor|]. constructor; [exact Hle|].
      eapply Forall_impl; [|exact Ht]. unfold N_ge. intros u Hu. lia.
    + constructor; [exact IH|]. rewrite insert_by_N_perm.
      constructor; [unfold N_ge; lia | exact Ht].
Qed.

Lemma sort_values_N_desc_sorted (l : list StormStats) :
  StronglySorted N_ge (sort_values_N_desc l).
Proof.
  induction l as [|s l IH]; simpl; [constructor|].
  now apply insert_by_N_sorted.
Qed.

(** *** The count of a group *)

Lemma agg_count_map {A B : Type} (f : A -> option B) (l : list A) :
  agg_count (map f l) = length (filter (fun a => notnull (f a)) l).
Proof.
  unfold agg_count. induction l as [|a l IH]; [reflexivity|].
  cbn [map filter]. destruct (notnull (f a)); simpl; now rewrite IH.
Qed.

Lemma filter_all {A : Type} (p : A -> bool) (l : list A) :
  (forall a, In a l -> p a = true) -> length (filter p l) = length l.
Proof.
  induction l as [|a l IH]; intros H; [reflexivity|].
  cbn [filter]. rewrite (H a (or_introl eq_refl)). simpl.
  f_equal. apply IH. intros b Hb. apply H. now right.
Qed.

(** *** Rounding *)

Lemma rint_down (z : Z) (x : R) :
  IZR z <= x < IZR z + 1 / 2 -> rint x = z.
Proof.
  intros H. unfold rint. rewrite (Zfloor_eq z x) by lra.
  destruct (Rlt_dec (x - IZR z) (1 / 2)); [reflexivity | lra].
Qed.

Lemma rint_up (z : Z) (x : R) :
  IZR z + 1 / 2 < x < IZR z + 1 -> rint x = (z + 1)%Z.
Proof.
  intros H. unfold rint. rewrite (Zfloor_eq z x) by lra.
  destruct (Rlt_dec (x - IZR z) (1 / 2)); [lra|].
  destruct (Rlt_dec (1 / 2) (x - IZR z)); [reflexivity | lra].
Qed.

(** The rounded value is within half a unit of the last place. *)
Lemma rint_close (x : R) : Rabs (IZR (rint x) - x) <= 1 / 2.
Proof.
  pose proof (Zfloor_bound x) as Hb. unfold rint.
  set (f := Zfloor x) in *.
  destruct (Rlt_dec (x - IZR f) (1 / 2)).
  - rewrite Rabs_left1 by lra. lra.
  - destruct (Rlt_dec (1 / 2) (x - IZR f)).
    + rewrite plus_IZR. rewrite Rabs_right by lra. lra.
    + destruct (Z.even f).
      * rewrite Rabs_left1 by lra. lra.
      * rewrite plus_IZR. rewrite Rabs_right by lra. lra.
Qed.

Lemma round3_close (x : R) :
  exists y, round3 (Num x) = Num y /\ Rabs (y - x) <= 1 / 2000.
Proof.
  eexists. split; [reflexivity|].
  pose proof (rint_close (x * 1000)) as H.
  replace (IZR (rint (x * 1000)) / 1000 - x)
    with ((IZR (rint (x * 1000)) - x * 1000) / 1000) by (field; lra).
  unfold Rdiv at 1. rewrite Rabs_mult, (Rabs_right (/ 1000)) by lra. lra.
Qed.

(** C7 (as the code has it).  The printed table holds one summary per
    storm of the dataset (the groups are keyed by the storm names, each
    once, in ascending order), every summary carries the mean and the
    sample deviation of BCI and the means of spread and error over the
    storm's records, each rounded to three decimals, and the count [N]
    of those records whose [valid_time] cell is not empty, which is the
    number of the storm's records when no cell is empty; and the
    summaries come in descending order of [N]. *)
Theorem storm_report_by_count (df : list Row) :
  let report := storm_report df in
  Permutation report (storm_stats df) /\
  StronglySorted N_ge report /\
  map st_storm (storm_stats df) = group_keys df /\
  StronglySorted name_lt (group_keys df) /\
  (forall k, In k (group_keys df) <-> In k (map storm df)) /\
  (forall s, In s report ->
     let rows := filter (fun r => String.eqb (storm r) (st_storm s)) df in
     rows <> [] /\
     N s = length (filter (fun r => notnull (valid_time r)) rows) /\
     ((forall r, In r rows -> valid_time r <> None) -> N s = length rows) /\
     BCI_mean s = round3 (agg_mean (map BCI rows)) /\
     BCI_std s = round3 (agg_std (map BCI rows)) /\
     Spread s = round3 (agg_mean (map model_std rows)) /\
     Error s = round3 (agg_mean (map mean_error rows))).
Proof.
  intros report.
  assert (Hp : Permutation report (storm_stats df))
    by apply sort_values_N_desc_perm.
  split; [exact Hp|]. split; [apply sort_values_N_desc_sorted|].
  split.
  { unfold storm_stats. rewrite map_map. simpl. apply map_id. }
  split; [apply group_keys_sorted|]. split; [apply group_keys_In|].
  intros s Hs. apply (Permutation_in _ Hp) in Hs.
  unfold storm_stats in Hs. apply in_map_iff in Hs.
  destruct Hs as (k & <- & Hk).
  assert (EN : N (stats_of df k)
               = length (filter (fun r => notnull (valid_time r))
                           (group_rows df k)))
    by (cbn [N stats_of]; apply agg_count_map).
  cbn [st_storm stats_of]. fold (group_rows df k). cbv zeta.
  split; [now apply group_rows_nonempty|].
  split; [exact EN|].
  split; [|now repeat split].
  intros Hall. rewrite EN. apply filter_all.
  intros r Hr. specialize (Hall r Hr). now destruct (valid_time r).
Qed.

(** In this model of the sort, storms with equal counts stay in
    ascending order of their names. *)
Lemma insert_by_N_order (s : StormStats) (l : list StormStats) :
  Forall (fun u => name_lt (st_storm s) (st_storm u)) l ->
  StronglySorted report_order l ->
  StronglySorted report_order (insert_by_N s l).
Proof.
  intros Hn Hs. induction Hs as [|t l Hs IH Ht]; simpl.
  - repeat constructor.
  - inversion Hn as [|? ? Hst Hn']; subst.
    destruct (Nat.leb_spec (N t) (N s)) as [Hle|Hgt].
    + constructor; [now constructor|].
      assert (Hsl : Forall (report_order s) l).
      { rewrite Forall_forall in *. intros u Hu.
        specialize (Ht u Hu). specialize (Hn' u Hu).
        unfold report_order in *.
        destruct (Nat.eq_dec (N u) (N s)); [now right | left; lia]. }
      constructor; [|exact Hsl].
      unfold report_order.
      destruct (Nat.eq_dec (N t) (N s)); [now right | left; lia].
    + constructor; [now apply IH|]. rewrite insert_by_N_perm.
      constructor; [left; lia | exact Ht].
Qed.

Lemma storm_report_ties_by_name (df : list Row) :
  StronglySorted report_order (storm_report df).
Proof.
  unfold storm_report, storm_stats.
  pose proof (group_keys_sorted df) as Hk.
  induction Hk as [|k ks Hs IH Hk]; simpl; [constructor|].
  apply insert_by_N_order; [|exact IH].
  rewrite sort_values_N_desc_perm. apply Forall_forall.
  intros u Hu. apply in_map_iff in Hu. destruct Hu as (k' & <- & Hk').
  simpl. rewrite Forall_forall in Hk. now apply Hk.
Qed.

(** Whatever function arranges the grouped table, the result cannot
    follow the order in which the storms were first met: the grouped
    table of B-then-A is the grouped table of A-then-B. *)
Lemma no_arrangement_follows_first_seen
    (arrange : list StormStats -> list StormStats) :
  ~ (forall df,
       map st_storm (arrange (storm_stats df))
       = map st_storm (summarize_by_storm_spec df)).
Proof.
  intros H.
  pose proof (H [row "B" 0.5 1 1; row "A" 0.5 1 1]) as H1.
  pose proof (H [row "A" 0.5 1 1; row "B" 0.5 1 1]) as H2.
  assert (E : storm_stats [row "B" 0.5 1 1; row "A" 0.5 1 1]
              = storm_stats [row "A" 0.5 1 1; row "B" 0.5 1 1])
    by reflexivity.
  rewrite E, H2 in H1. vm_compute in H1. discriminate.
Qed.

End StormFacts.

Module ValidationExamples.
Import Validation ValidationFacts BaselineFacts StormFacts.

Ltac not_constant a :=
  apply (all_equal_false_intro _ a); [simpl; auto 10 | lra].

(** C9 (as the code has it) on the signal 1, 2, 3, with the solve of
    exact arithmetic. *)
Lemma partial_correlation_self_witness :
  exists res r p,
    residual exact_lstsq [1; 2; 3] [1; 2; 3] = Some res /\
    partial_correlation exact_lstsq (fun _ _ => 0) [1; 2; 3] [1; 2; 3]
      [1; 2; 3]
    = pearsonr (fun _ _ => 0) res res /\
    pearsonr (fun _ _ => 0) res res = Some (r, p) /\
    r <> Num 0.
Proof.
  destruct (proj2 (partial_correlation_self exact_lstsq (fun _ _ => 0)
                     [1; 2; 3]))
    as (res & r & p & H1 & H2 & H3 & _ & _ & H6); [simpl; lia|].
  exists res, r, p. repeat split; assumption.
Defined.

(** C9, counterexample: the signal 1, 2 against itself, controlling for
    itself.  Whatever the solve and the p-value function, the call
    returns a pair and its coefficient is not 0. *)
Lemma partial_correlation_self_never_zero :
  (~ exists lstsq pv,
       partial_correlation lstsq pv [1; 2] [1; 2] [1; 2] = None) /\
  (~ exists lstsq pv p,
       partial_correlation lstsq pv [1; 2] [1; 2] [1; 2] = Some (Num 0, p)).
Proof.
  split.
  - intros (lstsq & pv & E).
    destruct (partial_correlation_self_residual lstsq pv [1; 2])
      as (res & _ & L & Epc); [easy|].
    rewrite Epc in E.
    destruct (pearsonr_some pv res res eq_refl) as (r & p & Er);
      [rewrite L; simpl; lia | congruence].
  - intros (lstsq & pv & p & E).
    exact (partial_correlation_self_not_zero lstsq pv _ p E).
Qed.

(** C7, counterexample: storm B is met before storm A and each has one
    record.  The printed table lists A before B; first-encounter order
    would list B before A. *)
Lemma storm_report_ties_not_first_seen :
  map st_storm (storm_report [row "B" 0.5 1 1; row "A" 0.5 1 1])
    = ["A"; "B"]%string /\
  map N (storm_report [row "B" 0.5 1 1; row "A" 0.5 1 1]) = [1; 1]%nat /\
  map st_storm (summarize_by_storm_spec [row "B" 0.5 1 1; row "A" 0.5 1 1])
    = ["B"; "A"]%string.
Proof. repeat split; vm_compute; reflexivity. Qed.

(** Storm a with BCI 0.4 and 0.6, storm b with one record: the mean is
    0.5, the sample deviation 0.1414... is printed as 0.141, and the
    deviation of a single record is NaN. *)
Example stats_of_example :
  let df := [row "a" 0.4 1 2; row "b" 0.5 1 2; row "a" 0.6 2 3] in
  stats_of df "a"
  = {| st_storm := "a"; BCI_mean := Num 0.5; BCI_std := Num 0.141;
       Spread := Num 1.5; Error := Num 2.5; N := 2 |} /\
  BCI_std (stats_of df "b") = NaN.
Proof.
  intros df.
  assert (Hm : forall a b m, a + b = m * 2 -> agg_mean [a; b] = Num m).
  { intros a b m H. unfold agg_mean.
    apply ScoringFacts.np_mean_eq; [easy | simpl; lra]. }
  assert (Hr : forall x z, IZR z <= x * 1000 < IZR z + 1 / 2 ->
                 round3 (Num x) = Num (IZR z / 1000)).
  { intros x z H. unfold round3. now rewrite (rint_down z). }
  split.
  - unfold stats_of, df. cbn [group_rows filter storm row String.eqb
      Ascii.eqb Bool.eqb andb map BCI model_std mean_error length].
    rewrite (Hm 0.4 0.6 0.5), (Hm 1 2 1.5), (Hm 2 3 2.5) by lra.
    rewrite (Hr 0.5 500%Z), (Hr 1.5 1500%Z), (Hr 2.5 2500%Z) by lra.
    assert (Es : agg_std [0.4; 0.6] = Num (sqrt 0.02)).
    { unfold agg_std. fold (agg_mean [0.4; 0.6]). rewrite (Hm 0.4 0.6 0.5) by lra.
      cbn [map length Nat.sub]. rewrite fdiv_num by (simpl; lra).
      rewrite fsqrt_num by (simpl; unfold Rsqr; lra).
      do 2 f_equal. simpl. unfold Rsqr. lra. }
    rewrite Es.
    assert (Hs : 0.141 <= sqrt 0.02 < 0.1415).
    { split.
      - replace 0.141 with (sqrt (0.141 * 0.141)) by (apply sqrt_square; lra).
        apply sqrt_le_1_alt. lra.
      - replace 0.1415 with (sqrt (0.1415 * 0.1415))
          by (apply sqrt_square; lra).
        apply sqrt_lt_1_alt. lra. }
    rewrite (Hr (sqrt 0.02) 141%Z) by lra.
    f_equal; f_equal; lra.
  - unfold stats_of, df. cbn [group_rows filter storm row String.eqb
      Ascii.eqb Bool.eqb andb map BCI length BCI_std].
    unfold agg_std. rewrite (ScoringFacts.np_mean_eq _ 0.5) by (easy || (simpl; lra)).
    cbn [map length Nat.sub]. unfold fdiv. cbn [INR].
    destruct (Req_dec_T 0 0); [reflexivity | lra].
Qed.

(** The scenario of the specification: five storms with 10, 3, 7, 1 and
    20 records are listed by descending count. *)
Example storm_report_scenario :
  let df := repeat (row "s1" 0.5 1 1) 10 ++ repeat (row "s2" 0.5 1 1) 3
            ++ repeat (row "s3" 0.5 1 1) 7 ++ repeat (row "s4" 0.5 1 1) 1
            ++ repeat (row "s5" 0.5 1 1) 20 in
  map (fun s => (st_storm s, N s)) (storm_report df)
  = [("s5", 20); ("s1", 10); ("s3", 7); ("s2", 3); ("s4", 1)]%string%nat.
Proof. vm_compute. reflexivity. Qed.

Ltac sort_eval :=
  repeat (cbn [sort fold_right insert_sorted map mean_error row length];
          first [ rewrite (proj2 (Rleb_true _ _)) by lra
                | rewrite (proj2 (Rleb_false _ _)) by lra ]).

(** Errors 4, 1, 3, 2: the 75th percentile is 3.25 and one record is
    above it. *)
Example error_threshold_example :
  let df := [row "a" 0.5 1 4; row "a" 0.5 1 1; row "b" 0.5 1 3;
             row "b" 0.5 1 2] in
  error_threshold df = Num 3.25 /\
  high_error df = [1; 0; 0; 0]%nat /\
  high_error_count df = 1%nat.
Proof.
  intros df.
  assert (E : error_threshold df = Num 3.25).
  { unfold df, error_threshold, quantile. sort_eval.
    cbn [length Nat.sub Nat.mul Nat.add]. 
    change ((3 * 3) / 4)%nat with 2%nat.
    change ((3 * 3) mod 4)%nat with 1%nat.
    cbn [Nat.min Nat.add nth]. f_equal. simpl. lra. }
  assert (H : high_error df = [1; 0; 0; 0]%nat).
  { unfold high_error. rewrite E. unfold df, fgtb. cbn [map mean_error row].
    rewrite (proj2 (Rgtb_true 4 3.25)) by lra.
    now rewrite !(proj2 (Rgtb_false _ 3.25)) by lra. }
  repeat split; try assumption.
  unfold high_error_count. now rewrite H.
Qed.

(** C6 on two records with errors 4 and 1: the threshold lies three
    quarters of the way from the smaller to the larger error. *)
Lemma high_error_labels_witness :
  exists (t : R) (sorted : list R),
    error_threshold [row "a" 0.5 1 4; row "b" 0.5 1 1] = Num t /\
    Permutation sorted [4; 1] /\ StronglySorted Rle sorted /\
    t = nth 0 sorted 0 + (nth 1 sorted 0 - nth 0 sorted 0) * (3 / 4) /\
    high_error_count [row "a" 0.5 1 4; row "b" 0.5 1 1]
    = length (filter (fun r => Rgtb (mean_error r) t)
                [row "a" 0.5 1 4; row "b" 0.5 1 1]).
Proof.
  destruct (high_error_labels [row "a" 0.5 1 4; row "b" 0.5 1 1])
    as (t & sorted & Et & Hp & Hs & Ht & _ & Hc); [discriminate|].
  exists t, sorted. repeat split; try assumption.
  rewrite Ht. cbn [length Nat.sub Nat.mul Nat.add].
  change ((1 + (1 + (1 + 0))) / 4)%nat with 0%nat.
  change ((1 + (1 + (1 + 0))) mod 4)%nat with 3%nat.
  cbn [Nat.min Nat.add]. f_equal. f_equal. simpl. lra.
Defined.

End ValidationExamples.

Module MatchingExamples.
Import Scoring Matching MatchingFacts.

(** Three matched rows: storm A at time 1 has four members, storm B at
    time 1 three, storm A at time 2 four (a fifth row of A, at time 3,
    matches no one).  The first and the third are scored, in that
    order. *)
Lemma process_validation_data_filter_witness :
  let matched_df := [matched "A" 1; matched "B" 1; matched "A" 2] in
  let ensemble_df :=
    [member "A" 1 20; member "B" 1 21; member "A" 2 19; member "A" 1 21;
     member "A" 1 22; member "B" 1 20; member "A" 2 20; member "A" 3 20;
     member "A" 2 21; member "B" 1 22; member "A" 1 23; member "A" 2 22] in
  map (fun r => (storm r, valid_time r, n_members r))
      (process_validation_data matched_df ensemble_df)
  = [("A"%string, 1%Z, 4%nat); ("A"%string, 2%Z, 4%nat)].
Proof.
  intros matched_df ensemble_df.
  destruct (process_validation_data_filter matched_df ensemble_df)
    as (E & _).
  rewrite E. unfold scored.
  assert (Hq : filter (enough_members ensemble_df) matched_df
               = [matched "A" 1; matched "A" 2]) by (vm_compute; reflexivity).
  rewrite Hq. cbn [map].
  repeat match goal with
  | |- context [calculate_bci ?m ?o ?s ?e] =>
      destruct (calculate_bci m o s e) as [[? ?] ?]
  end.
  vm_compute. reflexivity.
Defined.

End MatchingExamples.

(** * Further properties of the scoring engine *)

Module ScoringMore.
Import Scoring ScoringFacts.

(** *** rho as a function of the spread *)

Lemma py_min_one (x : R) : py_min (Num x) (Num 1) = Num (Rmin x 1).
Proof.
  unfold py_min, fltb, Rmin.
  destruct (Rltb 1 x) eqn:E.
  - apply Rltb_true in E. destruct (Rle_dec x 1); [lra | reflexivity].
  - apply Rltb_false in E. destruct (Rle_dec x 1); [reflexivity | lra].
Qed.

Lemma rho_above (s e : R) :
  e > 0.1 ->
  calculate_bci_component_rho (Num s) (Num e)
  = Num (Rmin (Rmax (Rmin (s / e) 1) 0.3) 1).
Proof.
  intros He. unfold calculate_bci_component_rho, spread_skill_ratio, fgtb.
  rewrite (proj2 (Rgtb_true e 0.1) He), fdiv_num by lra.
  now rewrite py_min_one.
Qed.

Lemma rho_below (s : fl) (e : R) :
  e <= 0.1 -> calculate_bci_component_rho s (Num e) = Num 1.
Proof.
  intros He. unfold calculate_bci_component_rho, spread_skill_ratio, fgtb.
  rewrite (proj2 (Rgtb_false e 0.1) He). apply np_clip_inside. lra.
Qed.

Ltac min_max_cases :=
  unfold Rmin, Rmax;
  repeat match goal with
  | |- context [Rle_dec ?x ?y] =>
      lazymatch x with
      | context [Rle_dec] => fail
      | _ => lazymatch y with
             | context [Rle_dec] => fail
             | _ => destruct (Rle_dec x y)
             end
      end
  end.


(** rho never decreases when the spread grows, whatever the error. *)
Theorem rho_monotone_in_spread (s1 s2 e : R) :
  s1 <= s2 ->
  exists r1 r2,
    calculate_bci_component_rho (Num s1) (Num e) = Num r1 /\
    calculate_bci_component_rho (Num s2) (Num e) = Num r2 /\
    r1 <= r2.
Proof.
  intros Hs. destruct (Rle_lt_dec e 0.1) as [He|He].
  - exists 1, 1. rewrite !rho_below by easy. repeat split; lra.
  - do 2 eexists. rewrite !rho_above by lra.
    split; [reflexivity|]. split; [reflexivity|].
    assert (Hq : s1 / e <= s2 / e).
    { apply Rmult_le_compat_r; [|exact Hs].
      left. apply Rinv_0_lt_compat. lra. }
    revert Hq. generalize (s1 / e) (s2 / e). intros q1 q2 Hq.
    min_max_cases; lra.
Qed.

(** *** Members that all miss the observation *)



(** *** BCI between its two components *)



(** *** An ensemble that agrees and is wrong *)




(** *** Instances *)


Lemma rho_monotone_in_spread_witness :
  exists r1 r2,
    calculate_bci_component_rho (Num 1) (Num 2) = Num r1 /\
    calculate_bci_component_rho (Num 3) (Num 2) = Num r2 /\
    r1 <= r2.
Proof. apply (rho_monotone_in_spread 1 3 2). lra. Defined.




End ScoringMore.

(** * Further properties of matching and filtering *)

Module MatchingMore.
Import Scoring Matching Summary ScoringFacts MatchingFacts.

Lemma process_validation_data_eq
    (matched_df : list MatchedRow) (ensemble_df : list EnsembleRow) :
  process_validation_data matched_df ensemble_df
  = map (fun row => scored row (members_of ensemble_df row))
        (filter (enough_members ensemble_df) matched_df).
Proof. unfold process_validation_data. now rewrite loop_from. Qed.

(** *** Rows are scored one by one *)

(** The loop carries nothing from one matched row to the next: scoring a
    table that is two tables one after the other gives the two scored
    tables one after the other. *)
Theorem process_validation_data_app
    (matched_1 matched_2 : list MatchedRow) (ensemble_df : list EnsembleRow) :
  process_validation_data (matched_1 ++ matched_2) ensemble_df
  = process_validation_data matched_1 ensemble_df
    ++ process_validation_data matched_2 ensemble_df.
Proof. now rewrite !process_validation_data_eq, filter_app, map_app. Qed.

(** *** The order of the ensemble table *)

Lemma filter_perm {A} (p : A -> bool) (l l' : list A) :
  Permutation l l' -> Permutation (filter p l) (filter p l').
Proof.
  induction 1 as [|x l l' _ IH|x y l|l l' l'' _ IH1 _ IH2]; simpl.
  - constructor.
  - destruct (p x); [now constructor | exact IH].
  - destruct (p x), (p y); try reflexivity. apply perm_swap.
  - now transitivity (filter p l').
Qed.

Lemma members_of_perm (ensemble_df ensemble_df' : list EnsembleRow)
    (row : MatchedRow) :
  Permutation ensemble_df ensemble_df' ->
  Permutation (members_of ensemble_df row) (members_of ensemble_df' row).
Proof.
  intros H. unfold members_of. now apply Permutation_map, filter_perm.
Qed.

(** Reordering the rows of the ensemble table moves no record: the same
    matched rows are scored, in the same order, with the same input
    columns, the same member counts and the same rho.  (phi and BCI are
    computed from sums over the members in table order.) *)
Theorem process_validation_data_ensemble_order
    (matched_df : list MatchedRow) (ensemble_df ensemble_df' : list EnsembleRow) :
  Permutation ensemble_df ensemble_df' ->
  let columns := fun r : ScoredRecord =>
    (storm r, valid_time r, obs_temperature r, model_mean r, model_std r,
     mean_error r, rho r, n_members r) in
  map columns (process_validation_data matched_df ensemble_df)
  = map columns (process_validation_data matched_df ensemble_df').
Proof.
  intros H columns. rewrite !process_validation_data_eq, !map_map.
  rewrite (filter_ext (enough_members ensemble_df)
             (enough_members ensemble_df')).
  - apply map_ext. intros row. unfold columns, scored, calculate_bci.
    cbn [storm valid_time obs_temperature model_mean model_std mean_error
         rho n_members].
    now rewrite (Permutation_length (members_of_perm _ _ row H)).
  - intros row. unfold enough_members.
    now rewrite (Permutation_length (members_of_perm _ _ row H)).
Qed.

(** *** What a record holds *)

(** Every record of the scored dataset copies its six input columns from
    a matched row, counts the ensemble rows with that row's key, and is
    consistent in itself: rho is the spread-skill score of the record's
    own spread and error columns, and BCI is the root of phi times rho. *)
Theorem scored_record_consistent
    (matched_df : list MatchedRow) (ensemble_df : list EnsembleRow)
    (r : ScoredRecord) :
  In r (process_validation_data matched_df ensemble_df) ->
  rho r = calculate_bci_component_rho (model_std r) (mean_error r) /\
  BCI r = fsqrt (fmul (phi r) (rho r)) /\
  exists row,
    In row matched_df /\
    storm r = m_storm row /\ valid_time r = m_valid_time row /\
    obs_temperature r = m_obs_temperature row /\
    model_mean r = m_model_mean row /\
    model_std r = m_model_std row /\
    mean_error r = m_mean_error row /\
    phi r = calculate_bci_component_phi (members_of ensemble_df row)
              (m_obs_temperature row) /\
    n_members r = length (filter (same_key row) ensemble_df).
Proof.
  rewrite process_validation_data_eq. intros Hr.
  apply in_map_iff in Hr. destruct Hr as (row & <- & Hin).
  apply filter_In in Hin. destruct Hin as [Hin _].
  unfold scored, calculate_bci. cbn. repeat split.
  exists row. repeat split; try assumption.
  unfold members_of. now rewrite length_map.
Qed.


(** *** Instances *)

(** Storm A at time 1 with four members, storm B with one. *)
Lemma sample_scored :
  process_validation_data sample_matched sample_ensemble
  = [sample_record].
Proof.
  rewrite process_validation_data_eq.
  assert (Hq : filter (enough_members sample_ensemble) sample_matched
               = [matched "A" 1])
    by (vm_compute; reflexivity).
  rewrite Hq. reflexivity.
Qed.

Lemma process_validation_data_ensemble_order_witness :
  map (fun r => (storm r, valid_time r, obs_temperature r, model_mean r,
                 model_std r, mean_error r, rho r, n_members r))
      (process_validation_data sample_matched sample_ensemble)
  = map (fun r => (storm r, valid_time r, obs_temperature r, model_mean r,
                   model_std r, mean_error r, rho r, n_members r))
        (process_validation_data sample_matched (rev sample_ensemble)).
Proof.
  apply (process_validation_data_ensemble_order sample_matched
           sample_ensemble (rev sample_ensemble)).
  apply Permutation_rev.
Defined.

Lemma scored_record_consistent_witness :
  let r := sample_record in
  rho r = calculate_bci_component_rho (model_std r) (mean_error r) /\
  BCI r = fsqrt (fmul (phi r) (rho r)).
Proof.
  intros r.
  destruct (scored_record_consistent sample_matched sample_ensemble r)
    as (H1 & H2 & _).
  - rewrite sample_scored. now left.
  - now split.
Defined.

End MatchingMore.

(** * The summary of the scored dataset *)

Module SummaryFacts.
Import Scoring Matching Summary ScoringFacts MatchingFacts.






(** The sum of values that all lie between [lo] and [hi]. *)
Lemma Rsum_between (lo hi : R) (l : list R) :
  Forall (fun y => lo <= y <= hi) l ->
  lo * INR (length l) <= Rsum l <= hi * INR (length l).
Proof.
  induction 1 as [|y l Hy _ IH].
  - simpl. lra.
  - change (Rsum (y :: l)) with (y + Rsum l).
    change (length (y :: l)) with (S (length l)). rewrite S_INR. lra.
Qed.

Lemma mean_between (lo hi : R) (l : list R) :
  l <> [] -> Forall (fun y => lo <= y <= hi) l ->
  exists m, np_mean l = Num m /\ lo <= m <= hi.
Proof.
  intros Hne Hall. rewrite np_mean_num by exact Hne.
  exists (Rsum l / INR (length l)). split; [reflexivity|].
  pose proof (length_pos_INR l Hne) as Hn.
  pose proof (Rsum_between lo hi l Hall) as [H1 H2].
  split.
  - apply Rmult_le_reg_r with (INR (length l)); [exact Hn|].
    replace (Rsum l / INR (length l) * INR (length l)) with (Rsum l)
      by (field; lra). exact H1.
  - apply Rmult_le_reg_r with (INR (length l)); [exact Hn|].
    replace (Rsum l / INR (length l) * INR (length l)) with (Rsum l)
      by (field; lra). exact H2.
Qed.

Lemma agg_std_nan_iff (l : list R) :
  l <> [] -> (Validation.agg_std l = NaN <-> length l = 1%nat).
Proof.
  intros Hne. unfold Validation.agg_std. rewrite np_mean_num by exact Hne.
  destruct l as [|x [|y l]]; [easy | |].
  - cbn [length Nat.sub]. unfold fdiv. cbn [INR].
    destruct (Req_dec_T 0 0); [|lra]. unfold fsqrt. tauto.
  - set (m := Rsum (x :: y :: l) / INR (length (x :: y :: l))).
    assert (Hpos : 0 < INR (length (x :: y :: l) - 1)).
    { replace (length (x :: y :: l) - 1)%nat with (S (length l))
        by (simpl; lia).
      rewrite S_INR. pose proof (pos_INR (length l)). lra. }
    rewrite fdiv_num by lra.
    rewrite fsqrt_num.
    + split; [discriminate | cbn [length]; lia].
    + apply Rmult_le_pos; [apply Rsum_sqr_nonneg|].
      apply Rlt_le, Rinv_0_lt_compat, Hpos.
Qed.

Lemma summary_statistics_none (results_df : list ScoredRecord) :
  summary_statistics results_df = None <-> results_df = [].
Proof.
  unfold summary_statistics, column. destruct results_df; [tauto|].
  split; discriminate.
Qed.


(** *** When the function raises *)

(** [process_validation_data] returns a frame exactly when some matched
    row has four or more ensemble rows with its key.  When none has, the
    frame built from the empty list has no column BCI and the summary
    raises (after the empty file is written). *)
Theorem process_validation_data_raises_iff
    (matched_df : list MatchedRow) (ensemble_df : list EnsembleRow) :
  process_validation_data_run matched_df ensemble_df = None
  <-> forall row, In row matched_df ->
        (length (filter (same_key row) ensemble_df) < 4)%nat.
Proof.
  unfold process_validation_data_run.
  destruct (summary_statistics _) as [s|] eqn:E.
  - split; [discriminate|]. intros H. exfalso.
    assert (Hne : process_validation_data matched_df ensemble_df <> []).
    { intros Hnil. apply summary_statistics_none in Hnil. congruence. }
    apply Hne. unfold process_validation_data. rewrite loop_from. simpl.
    replace (filter (enough_members ensemble_df) matched_df) with
      (@nil MatchedRow); [reflexivity|].
    symmetry. clear -H. induction matched_df as [|row rows IH];
      [reflexivity|]. simpl.
    assert (Hrow := H row (or_introl eq_refl)).
    unfold enough_members, members_of at 1. rewrite length_map.
    destruct (Nat.leb_spec 4 (length (filter (same_key row) ensemble_df)));
      [lia|]. apply IH. intros r Hr. apply H. now right.
  - split; [|reflexivity]. intros _ row Hin.
    apply summary_statistics_none in E.
    unfold process_validation_data in E. rewrite loop_from in E. simpl in E.
    apply map_eq_nil in E.
    destruct (Nat.ltb_spec (length (filter (same_key row) ensemble_df)) 4)
      as [Hlt|Hge]; [exact Hlt|]. exfalso.
    assert (Hq : In row (filter (enough_members ensemble_df) matched_df)).
    { apply filter_In. split; [exact Hin|].
      unfold enough_members, members_of. rewrite length_map.
      now apply Nat.leb_le. }
    rewrite E in Hq. exact Hq.
Qed.

(** *** The summary of a frame that is returned *)






(** *** Instances *)


End SummaryFacts.

(** * Further properties of the partial correlation *)

Module PartialMore.
Import Validation ValidationFacts.

(** *** The order of the two signals *)

Lemma zip_with_flip {A B C} (f : A -> B -> C) (g : B -> A -> C)
    (xs : list A) (ys : list B) :
  (forall a b, f a b = g b a) -> zip_with f xs ys = zip_with g ys xs.
Proof.
  intros H. revert ys. induction xs as [|x xs IH]; intros [|y ys]; simpl;
    try easy. now rewrite H, IH.
Qed.

Lemma pearsonr_sym (pv : nat -> R -> R) (x y : list R) :
  pearsonr pv x y = pearsonr pv y x.
Proof.
  unfold pearsonr.
  destruct (Nat.eqb_spec (length x) (length y)) as [Hl|Hl].
  - rewrite <- Hl, Nat.eqb_refl. cbn [negb orb].
    destruct (length x <? 2)%nat; [reflexivity|].
    rewrite (orb_comm (all_equal y)).
    destruct (all_equal x || all_equal y); [reflexivity|].
    assert (E : forall p q xs ys,
               Rsum (zip_with (fun a b => a / p * (b / q)) xs ys)
               = Rsum (zip_with (fun a b => a / q * (b / p)) ys xs)).
    { intros. f_equal. apply zip_with_flip. intros. unfold Rdiv. ring. }
    cbv zeta. now rewrite E.
  - destruct (Nat.eqb_spec (length y) (length x)) as [Hl'|_]; [congruence|].
    reflexivity.
Qed.

(** Exchanging the two signals changes neither the coefficient nor the
    p-value, whatever the solve returns. *)
Theorem partial_correlation_sym
    (lstsq : list R -> list R -> R * R) (pv : nat -> R -> R)
    (x y control : list R) :
  partial_correlation lstsq pv x y control
  = partial_correlation lstsq pv y x control.
Proof.
  unfold partial_correlation.
  destruct (residual lstsq x control), (residual lstsq y control);
    try reflexivity.
  apply pearsonr_sym.
Qed.

(** *** Instances *)

Lemma np_polyfit1_example :
  np_polyfit1 [0; 1; 2] [1; 2; 4] = Some (3 / 2, 5 / 6).
Proof.
  unfold np_polyfit1. cbn [length Nat.eqb negb orb].
  rewrite !INR_IZR_INZ. cbn [Z.of_nat Pos.of_succ_nat Pos.succ].
  cbn [map zip_with]. rewrite !Rsum_cons. cbn [Rsum fold_right].
  destruct (Req_dec_T _ 0) as [E|_]; [exfalso; lra|].
  f_equal. f_equal; field.
Qed.

(** The line fitted to (0, 1), (1, 2), (2, 4) against the line through
    the first two points. *)
Lemma np_polyfit1_least_squares_witness :
  np_polyfit1 [0; 1; 2] [1; 2; 4] = Some (3 / 2, 5 / 6) /\
  squared_error (3 / 2, 5 / 6) [0; 1; 2] [1; 2; 4]
  <= squared_error (1, 1) [0; 1; 2] [1; 2; 4].
Proof.
  split; [exact np_polyfit1_example|].
  apply (np_polyfit1_least_squares [0; 1; 2] [1; 2; 4] (3 / 2) (5 / 6)).
  exact np_polyfit1_example.
Defined.

End PartialMore.

(** * Further properties of the per-storm table *)

Module StormMore.
Import Validation ValidationFacts BaselineFacts StormFacts.

Lemma In_storm_report (df : list Row) (s : StormStats) :
  In s (storm_report df) <->
  exists k, In k (group_keys df) /\ s = stats_of df k.
Proof.
  unfold storm_report.
  assert (Hp := sort_values_N_desc_perm (storm_stats df)).
  split.
  - intros Hs. apply (Permutation_in _ Hp) in Hs.
    unfold storm_stats in Hs. apply in_map_iff in Hs.
    destruct Hs as (k & <- & Hk). now exists k.
  - intros (k & Hk & ->). apply (Permutation_in _ (Permutation_sym Hp)).
    unfold storm_stats. now apply in_map.
Qed.

(** *** Every record is counted once *)






(** *** The order of the records *)

Lemma sorted_names_unique (l1 l2 : list string) :
  StronglySorted name_lt l1 -> StronglySorted name_lt l2 ->
  (forall k, In k l1 <-> In k l2) -> l1 = l2.
Proof.
  intros H1. revert l2. induction H1 as [|a l1 Hs1 IH Ha]; intros l2 H2 Hin.
  - destruct l2 as [|b l2]; [reflexivity|].
    exfalso. apply (Hin b). now left.
  - destruct H2 as [|b l2 Hs2 Hb].
    + exfalso. apply (Hin a). now left.
    + rewrite Forall_forall in Ha, Hb.
      assert (Eab : a = b).
      { destruct (proj1 (Hin a) (or_introl eq_refl)) as [E|Hal2]; [easy|].
        destruct (proj2 (Hin b) (or_introl eq_refl)) as [E|Hbl1]; [easy|].
        exfalso. apply (name_lt_irrefl a).
        apply (name_lt_trans a b a); [now apply Ha | now apply Hb]. }
      subst b. f_equal. apply IH; [exact Hs2|].
      intros k. split; intros Hk.
      * destruct (proj1 (Hin k) (or_intror Hk)) as [E|Hk2]; [|exact Hk2].
        subst k. exfalso. exact (name_lt_irrefl a (Ha a Hk)).
      * destruct (proj2 (Hin k) (or_intror Hk)) as [E|Hk1]; [|exact Hk1].
        subst k. exfalso. exact (name_lt_irrefl a (Hb a Hk)).
Qed.

Lemma group_keys_perm (df df' : list Row) :
  Permutation df df' -> group_keys df = group_keys df'.
Proof.
  intros H. apply sorted_names_unique; try apply group_keys_sorted.
  intros k. rewrite !group_keys_In.
  split; apply Permutation_in; [|symmetry]; now apply Permutation_map.
Qed.

Lemma agg_std_perm (a b : list R) :
  Permutation a b -> agg_std a = agg_std b.
Proof.
  intros H. unfold agg_std.
  rewrite (ScoringFacts.np_mean_perm _ _ H).
  destruct (np_mean b) as [m|]; [|reflexivity].
  rewrite (ScoringFacts.Rsum_perm _ _ (Permutation_map _ H)).
  now rewrite (Permutation_length H).
Qed.

Lemma stats_of_perm (df df' : list Row) (k : string) :
  Permutation df df' -> stats_of df k = stats_of df' k.
Proof.
  intros H. unfold stats_of.
  assert (Hg : Permutation (group_rows df k) (group_rows df' k))
    by now apply MatchingMore.filter_perm.
  unfold agg_mean.
  rewrite (ScoringFacts.np_mean_perm _ _ (Permutation_map BCI Hg)).
  rewrite (agg_std_perm _ _ (Permutation_map BCI Hg)).
  rewrite (ScoringFacts.np_mean_perm _ _ (Permutation_map model_std Hg)).
  rewrite (ScoringFacts.np_mean_perm _ _ (Permutation_map mean_error Hg)).
  unfold agg_count.
  now rewrite (Permutation_length
                 (MatchingMore.filter_perm notnull _ _
                    (Permutation_map valid_time Hg))).
Qed.

(** The printed table does not depend on the order of the records of
    the dataset. *)
Theorem storm_report_record_order (df df' : list Row) :
  Permutation df df' -> storm_report df = storm_report df'.
Proof.
  intros H. unfold storm_report, storm_stats.
  rewrite (group_keys_perm _ _ H). f_equal.
  apply map_ext. intros k. now apply stats_of_perm.
Qed.

(** *** A storm with a single record *)

Lemma round3_nan_iff (a : fl) : round3 a = NaN <-> a = NaN.
Proof. destruct a; simpl; split; easy. Qed.

(** The deviation printed for a storm is NaN exactly when the storm has
    a single record. *)
Theorem storm_report_std_nan_iff (df : list Row) (s : StormStats) :
  In s (storm_report df) ->
  (BCI_std s = NaN <-> length (group_rows df (st_storm s)) = 1%nat).
Proof.
  rewrite In_storm_report. intros (k & Hk & ->).
  cbn [BCI_std st_storm stats_of].
  rewrite round3_nan_iff.
  pose proof (group_rows_nonempty df k Hk) as Hne.
  rewrite SummaryFacts.agg_std_nan_iff, length_map; [reflexivity|].
  destruct (group_rows df k); [easy | discriminate].
Qed.

(** *** Instances *)

Lemma storm_report_record_order_witness :
  storm_report [row "a" 0.4 1 2; row "b" 0.5 1 2; row "a" 0.6 2 3]
  = storm_report [row "b" 0.5 1 2; row "a" 0.4 1 2; row "a" 0.6 2 3].
Proof. apply storm_report_record_order. apply perm_swap. Defined.

Lemma sample_report_row :
  In (stats_of [row "a" 0.4 1 2; row "b" 0.5 1 2; row "a" 0.6 2 3] "b")
     (storm_report [row "a" 0.4 1 2; row "b" 0.5 1 2; row "a" 0.6 2 3]).
Proof.
  apply In_storm_report. exists "b"%string. split; [|reflexivity].
  vm_compute. auto.
Qed.

(** Storm b has one record. *)
Lemma storm_report_std_nan_iff_witness :
  BCI_std (stats_of [row "a" 0.4 1 2; row "b" 0.5 1 2; row "a" 0.6 2 3] "b")
  = NaN.
Proof.
  apply (storm_report_std_nan_iff
           [row "a" 0.4 1 2; row "b" 0.5 1 2; row "a" 0.6 2 3]).
  - exact sample_report_row.
  - vm_compute. reflexivity.
Defined.

End StormMore.

(** * Further properties of the high-error label *)

Module BaselineMore.
Import Validation ValidationFacts BaselineFacts.

(** The threshold of a non-empty table is a number, not below the order
    statistic it interpolates from. *)
Lemma error_threshold_ge_lower (df : list Row) :
  df <> [] ->
  exists t, error_threshold df = Num t /\
    nth (3 * (length df - 1) / 4) (sort (map mean_error df)) 0 <= t.
Proof.
  intros H. pose proof (error_threshold_num df H) as E. cbv zeta in E.
  set (n := length df) in *.
  set (s := sort (map mean_error df)) in *.
  set (lower := (3 * (n - 1) / 4)%nat) in *.
  set (upper := Nat.min (lower + 1) (n - 1)) in *.
  assert (Hn : (0 < n)%nat) by (unfold n; destruct df; simpl; [easy | lia]).
  assert (Hlen : length s = n)
    by (unfold s; now rewrite sort_length, length_map).
  assert (Hlow : (lower <= n - 1)%nat).
  { unfold lower. apply Nat.Div0.div_le_upper_bound. lia. }
  assert (Hup : (lower <= upper)%nat) by (unfold upper; lia).
  pose proof (sorted_nth_le s lower upper (sort_sorted _) Hup
                ltac:(unfold upper; lia)) as Hab.
  assert (Hg : 0 <= INR ((3 * (n - 1)) mod 4) / INR 4).
  { apply Rmult_le_pos; [apply pos_INR|].
    left. apply Rinv_0_lt_compat. simpl. lra. }
  eexists. split; [exact E|]. nra.
Qed.

(** When every record has the same error (a single record included), no
    record is labelled high-error: the label column has one class
    only. *)
Theorem high_error_none_when_constant (df : list Row) (e : R) :
  (forall r, In r df -> mean_error r = e) ->
  Forall (fun label => label = 0%nat) (high_error df) /\
  high_error_count df = 0%nat.
Proof.
  intros Hall.
  assert (Hl : Forall (fun label => label = 0%nat) (high_error df)).
  { destruct df as [|r0 df'] eqn:Ed; [constructor|]. rewrite <- Ed in *.
    assert (Hne : df <> []) by (rewrite Ed; discriminate).
    destruct (error_threshold_ge_lower df Hne) as (t & Et & Ht).
    assert (Hin : In (nth (3 * (length df - 1) / 4)
                        (sort (map mean_error df)) 0)
                     (map mean_error df)).
    { apply (Permutation_in _ (sort_perm _)). apply nth_In.
      rewrite sort_length, length_map.
      assert (3 * (length df - 1) / 4 <= length df - 1)%nat
        by (apply Nat.Div0.div_le_upper_bound; lia).
      assert (0 < length df)%nat by (rewrite Ed; simpl; lia). lia. }
    apply in_map_iff in Hin. destruct Hin as (r & Er & Hr).
    rewrite <- Er, (Hall r Hr) in Ht.
    unfold high_error. rewrite Et. apply Forall_forall.
    intros label Hlabel. apply in_map_iff in Hlabel.
    destruct Hlabel as (r' & <- & Hr'). unfold fgtb.
    rewrite (Hall r' Hr'), (proj2 (Rgtb_false e t)); [reflexivity | exact Ht]. }
  split; [exact Hl|]. unfold high_error_count.
  induction Hl as [|label l E _ IH]; [reflexivity|]. simpl. now rewrite E, IH.
Qed.

(** *** Instances *)

(** Four records: at most one is labelled. *)
Lemma high_error_top_quarter_witness :
  (high_error_count [row "a" 0.5 1 4; row "a" 0.5 1 1; row "b" 0.5 1 3;
                     row "b" 0.5 1 2] <= 1)%nat.
Proof.
  apply (high_error_top_quarter
           [row "a" 0.5 1 4; row "a" 0.5 1 1; row "b" 0.5 1 3;
            row "b" 0.5 1 2]).
  discriminate.
Defined.

Lemma high_error_none_when_constant_witness :
  Forall (fun label => label = 0%nat)
    (high_error [row "a" 0.5 1 2; row "b" 0.6 1 2]) /\
  high_error_count [row "a" 0.5 1 2; row "b" 0.6 1 2] = 0%nat.
Proof.
  apply (high_error_none_when_constant _ 2).
  intros r [<- | [<- | []]]; reflexivity.
Defined.

End BaselineMore.

(** * validate_bci as a whole *)

Module ReportFacts.
Import Validation ValidationFacts StormFacts Report.

(** *** The verdict *)

(** The verdict by the p-value: highly significant below 0.001, very
    significant from 0.001 to below 0.01, significant from 0.01 to below
    0.05, and not significant from 0.05 on and when the p-value is
    NaN. *)
Theorem significance_by_p_value (partial_p : fl) :
  (significance partial_p = "  *** HIGHLY SIGNIFICANT (p < 0.001)"%string
   <-> exists p, partial_p = Num p /\ p < 0.001) /\
  (significance partial_p = "  ** VERY SIGNIFICANT (p < 0.01)"%string
   <-> exists p, partial_p = Num p /\ 0.001 <= p < 0.01) /\
  (significance partial_p = "  * SIGNIFICANT (p < 0.05)"%string
   <-> exists p, partial_p = Num p /\ 0.01 <= p < 0.05) /\
  (significance partial_p = "  NOT SIGNIFICANT"%string
   <-> partial_p = NaN \/ exists p, partial_p = Num p /\ 0.05 <= p).
Proof.
  unfold significance. destruct partial_p as [p|]; unfold fltb.
  - destruct (Rltb p 0.001) eqn:E1;
      [apply Rltb_true in E1 | apply Rltb_false in E1];
      [|destruct (Rltb p 0.01) eqn:E2;
          [apply Rltb_true in E2 | apply Rltb_false in E2];
          [|destruct (Rltb p 0.05) eqn:E3;
              [apply Rltb_true in E3 | apply Rltb_false in E3]]];
      (repeat split; intros H;
       try discriminate H;
       try (exists p; split; [reflexivity | lra]);
       try (destruct H as (q & Hq & Hlt); injection Hq as <-; lra);
       try (destruct H as [H | (q & Hq & Hlt)];
            [discriminate H | injection Hq as <-; lra]);
       try reflexivity;
       try (right; exists p; split; [reflexivity | lra])).
  - repeat split; intros H; try discriminate H;
      try (destruct H as (q & Hq & _); discriminate Hq);
      try reflexivity; try now left.
Qed.

(** *** Too few records *)


(** *** A dataset that is reported *)


(** *** Instances *)



End ReportFacts.

(** * The download loop *)

Module DownloadFacts.
Import Download.
Local Open Scope nat_scope.
Local Open Scope list_scope.

Section Loop.

Variable World : Type.
Variable retrieve : list (string * string) -> World -> World * bool.
Variable path_exists : World -> string -> bool.
Variable getsize : World -> string -> nat.

Lemma counters_app (a b : list Line) :
  counters (a ++ b) = counters a ++ counters b.
Proof. unfold counters. apply flat_map_app. Qed.

Lemma inner_loop (total : nat) (storm : Storm) (origins : list string)
    (st : State World) :
  let st' := fold_left (attempt retrieve path_exists getsize total storm) origins st in
  completed st' = completed st + length origins /\
  requests st'
  = requests st
    ++ map (fun origin => request storm origin (filepath storm origin))
         origins /\
  counters (printed st')
  = counters (printed st)
    ++ map (fun i => (i, total)) (seq (S (completed st)) (length origins)).
Proof.
  revert st. induction origins as [|origin rest IH]; intros st.
  - simpl. rewrite Nat.add_0_r, !app_nil_r. auto.
  - cbn [fold_left]. destruct (IH (attempt retrieve path_exists getsize total storm st origin))
      as (Hc & Hr & Hp).
    cbv zeta. rewrite Hc, Hr, Hp. unfold attempt.
    cbn [completed requests printed length map seq].
    rewrite counters_app, <- !app_assoc. cbn [counters flat_map app].
    repeat split. lia.
Qed.

Lemma outer_loop (total : nat) (storms : list Storm) (origins : list string)
    (st : State World) :
  let st' := fold_left (per_storm retrieve path_exists getsize total origins) storms st in
  completed st' = completed st + length storms * length origins /\
  requests st'
  = requests st
    ++ map (fun p => request (fst p) (snd p) (filepath (fst p) (snd p)))
         (pairs storms origins) /\
  counters (printed st')
  = counters (printed st)
    ++ map (fun i => (i, total))
         (seq (S (completed st)) (length storms * length origins)).
Proof.
  revert st. induction storms as [|storm rest IH]; intros st.
  - simpl. rewrite Nat.add_0_r, !app_nil_r. auto.
  - cbn [fold_left]. destruct (IH (per_storm retrieve path_exists getsize total origins st storm))
      as (Hc & Hr & Hp).
    cbv zeta. rewrite Hc, Hr, Hp. unfold per_storm.
    match goal with
    | |- context [fold_left _ origins ?s0] =>
        destruct (inner_loop total storm origins s0) as (Ic & Ir & Ip)
    end.
    cbv zeta in Ic, Ir, Ip. rewrite Ic, Ir, Ip.
    cbn [completed requests printed].
    rewrite counters_app. cbn [counters flat_map app]. rewrite app_nil_r.
    unfold pairs. cbn [flat_map length Nat.mul].
    rewrite map_app, map_map, <- !app_assoc. cbn [fst snd].
    rewrite seq_app, map_app.
    repeat split. lia.
Qed.

(** Whatever the server answers (a file, nothing, an Exception), the
    script makes one request for every (storm, origin) pair, in the
    order of the two loops and each with the pair's dates, origin code
    and target path; the progress counter printed with the k-th request
    is k of the total, and it ends at the total.  No request is skipped
    or repeated after a failure. *)
Theorem download_requests_every_pair
    (storms : list Storm) (origins : list string) (w : World) :
  let st := download retrieve path_exists getsize storms origins w in
  let total := length storms * length origins in
  requests st
  = map (fun p => request (fst p) (snd p) (filepath (fst p) (snd p)))
      (pairs storms origins) /\
  length (requests st) = total /\
  completed st = total /\
  counters (printed st) = map (fun i => (i, total)) (seq 1 total).
Proof.
  intros st total. unfold st, download.
  match goal with
  | |- context [fold_left _ storms ?s0] =>
      destruct (outer_loop total storms origins s0) as (Hc & Hr & Hp)
  end.
  cbv zeta in Hc, Hr, Hp. fold total. rewrite Hc, Hr, Hp.
  cbn [completed requests printed counters flat_map app].
  repeat split.
  rewrite length_map. unfold pairs, total. clear.
  induction storms as [|s rest IH]; [reflexivity|].
  cbn [flat_map length Nat.mul]. now rewrite length_app, length_map, IH.
Qed.

End Loop.

(** *** The target paths *)

Lemma list_of_append (a b : string) :
  list_ascii_of_string (a ++ b)%string
  = list_ascii_of_string a ++ list_ascii_of_string b.
Proof. induction a as [|c a IH]; simpl; [reflexivity | now rewrite IH]. Qed.

Lemma list_of_string_inj (a b : string) :
  list_ascii_of_string a = list_ascii_of_string b -> a = b.
Proof.
  intros H. rewrite <- (string_of_list_ascii_of_string a),
    <- (string_of_list_ascii_of_string b). now rewrite H.
Qed.

Lemma no_underscore_In (s : string) :
  no_underscore s = true -> ~ In "_"%char (list_ascii_of_string s).
Proof.
  induction s as [|c s IH]; simpl; [tauto|].
  rewrite andb_true_iff, negb_true_iff. intros [Hc Hs] [E|Hin].
  - subst c. discriminate.
  - now apply IH.
Qed.

(** A text is cut in one way only at its last separator. *)
Lemma cut_at_last {A} (u : A) (a1 b1 a2 b2 : list A) :
  ~ In u b1 -> ~ In u b2 ->
  a1 ++ u :: b1 = a2 ++ u :: b2 -> a1 = a2 /\ b1 = b2.
Proof.
  intros H1 H2. revert a2.
  induction a1 as [|x a1 IH]; intros [|y a2] E; simpl in E.
  - injection E as E. now split.
  - injection E as Ex E. exfalso. apply H1. rewrite E.
    apply in_or_app. right. now left.
  - injection E as Ex E. exfalso. apply H2. rewrite <- E.
    apply in_or_app. right. now left.
  - injection E as Ex E. destruct (IH _ E) as [Ea Eb]. subst. now split.
Qed.

Lemma os_path_join_inj (b1 b2 : string) :
  os_path_join output_dir b1 = os_path_join output_dir b2 -> b1 = b2.
Proof.
  unfold os_path_join.
  change ((String.length output_dir =? 0) || ends_with_sep output_dir)
    with false. cbv iota.
  destruct (starts_with_sep b1) eqn:E1, (starts_with_sep b2) eqn:E2;
    intros H.
  - exact H.
  - destruct b1 as [|c b1]; [discriminate|]. simpl in E1.
    apply Ascii.eqb_eq in E1. subst c. discriminate.
  - destruct b2 as [|c b2]; [discriminate|]. simpl in E2.
    apply Ascii.eqb_eq in E2. subst c. discriminate.
  - unfold output_dir in H. simpl in H. now injection H.
Qed.

Lemma filepath_inj (s1 s2 : Storm) (o1 o2 : string) :
  no_underscore o1 = true -> no_underscore o2 = true ->
  filepath s1 o1 = filepath s2 o2 ->
  lower (name s1) = lower (name s2) /\ o1 = o2.
Proof.
  intros H1 H2 E. apply os_path_join_inj in E.
  apply (f_equal list_ascii_of_string) in E.
  rewrite !list_of_append in E. cbn [list_ascii_of_string app] in E.
  apply cut_at_last in E.
  - destruct E as [Ea Eb]. split; [now apply list_of_string_inj|].
    apply app_inv_tail in Eb. now apply list_of_string_inj.
  - intros Hin. apply in_app_or in Hin. destruct Hin as [Hin|Hin].
    + now apply (no_underscore_In o1).
    + simpl in Hin. repeat (destruct Hin as [Hin|Hin]; [discriminate|]).
      exact Hin.
  - intros Hin. apply in_app_or in Hin. destruct Hin as [Hin|Hin].
    + now apply (no_underscore_In o2).
    + simpl in Hin. repeat (destruct Hin as [Hin|Hin]; [discriminate|]).
      exact Hin.
Qed.

Lemma distinct_NoDup (l : list string) : distinct l = true -> NoDup l.
Proof.
  induction l as [|x l IH]; simpl; [constructor|].
  rewrite andb_true_iff, negb_true_iff. intros [Hx Hl].
  constructor; [|now apply IH].
  intros Hin. assert (E : existsb (String.eqb x) l = true).
  { apply existsb_exists. exists x. split; [exact Hin | apply String.eqb_refl]. }
  congruence.
Qed.

Lemma NoDup_map_pairs {A B C} (f : A -> B -> C) (xs : list A) (ys : list B)
    (key : A -> string) :
  NoDup (map key xs) -> NoDup ys ->
  (forall x y x' y', In y ys -> In y' ys ->
     f x y = f x' y' -> key x = key x' /\ y = y') ->
  NoDup (flat_map (fun x => map (f x) ys) xs).
Proof.
  intros Hx Hy Hinj. induction xs as [|x xs IH]; simpl; [constructor|].
  inversion Hx as [|k ks Hk Hks]; subst.
  assert (Hrow : NoDup (map (f x) ys)).
  { clear -Hy Hinj. induction Hy as [|y ys Hy Hnd IHy]; simpl; [constructor|].
    constructor.
    - intros Hin. apply in_map_iff in Hin. destruct Hin as (y' & E & Hy').
      destruct (Hinj x y' x y) as [_ E']; [now right | now left | exact E|].
      subst. contradiction.
    - apply IHy. intros a b a' b' Hb Hb'. apply Hinj; now right. }
  apply NoDup_app; [exact Hrow | now apply IH|].
  intros z Hz Hz'. apply in_map_iff in Hz. destruct Hz as (y & <- & Hy1).
  apply in_flat_map in Hz'. destruct Hz' as (x' & Hx' & Hz').
  apply in_map_iff in Hz'. destruct Hz' as (y' & E & Hy').
  destruct (Hinj _ _ _ _ Hy' Hy1 E) as [Ek _].
  apply Hk. rewrite <- Ek. now apply in_map.
Qed.

(** No two requests write to the same file: when the storm names differ
    beyond letter case, the origin codes differ and none of them holds
    an underscore, the target paths of the (storm, origin) pairs are all
    different. *)
Theorem targets_distinct (storms : list Storm) (origins : list string) :
  distinct (map (fun s => lower (name s)) storms) = true ->
  distinct origins = true ->
  forallb no_underscore origins = true ->
  NoDup (map (fun p => filepath (fst p) (snd p)) (pairs storms origins)).
Proof.
  intros Hs Ho Hu. apply distinct_NoDup in Hs, Ho.
  rewrite forallb_forall in Hu.
  unfold pairs. rewrite flat_map_concat_map, concat_map, map_map.
  rewrite <- flat_map_concat_map.
  rewrite (flat_map_ext _ (fun s => map (filepath s) origins)).
  - apply (NoDup_map_pairs filepath storms origins
             (fun s => lower (name s))); try assumption.
    intros x y x' y' Hy Hy' E.
    apply filepath_inj; auto.
  - intros s. now rewrite map_map.
Qed.

(** *** Instances *)

(** The storms and origins of the script: 28 different files. *)
Lemma targets_distinct_witness :
  NoDup (map (fun p => filepath (fst p) (snd p)) (pairs storms origins)) /\
  length (pairs storms origins) = 28.
Proof.
  split; [|reflexivity].
  apply (targets_distinct storms origins); vm_compute; reflexivity.
Defined.

End DownloadFacts.
